(** * Row operators of cudf: element and row comparison

    A shallow embedding of [cpp/include/cudf/table/row_operators.cuh]
    (namespace [cudf::exp]): the tri-state [weak_ordering], the functor
    [element_relational_comparator] with its two overloads, and the class
    [row_lexicographic_comparator] with its constructor and call operator.

    The header depends on declarations that live in other headers
    ([column_device_view], [table_device_view], [type_dispatcher], the trait
    [is_relationally_comparable], the macros [CUDF_EXPECTS] and
    [release_assert], the enumerations [null_size] and [order]).  The element
    types and their [operator<] are taken as a parameter (a type class); the
    views are records holding what the comparators read from them. *)

From Stdlib Require Import ZArith Bool Floats.PrimFloat.
From stdpp Require Import base decidable option list strings.

Local Open Scope Z_scope.

(** ** Enumerations *)

(** [enum class weak_ordering]: the result of an element comparison. *)
Inductive weak_ordering : Type :=
  | LESS        (* [a] is ordered before [b] *)
  | EQUIVALENT  (* [a] is neither less nor greater than [b] *)
  | GREATER.    (* [a] is ordered after [b] *)

(** Modelled from the spec: [cudf::null_size] (cudf/sorting.hpp is not part
    of the sources at hand), the null ordering policy: nulls sort lowest or
    highest, for every column alike. *)
Inductive null_size : Type := LOWEST | HIGHEST.

(** Modelled from the spec: [cudf::order] (cudf/sorting.hpp is not part of
    the sources at hand), the direction flag of one key column. *)
Inductive order : Type := ASCENDING | DESCENDING.

#[global] Instance weak_ordering_eq_dec : EqDecision weak_ordering.
Proof. solve_decision. Defined.
#[global] Instance null_size_eq_dec : EqDecision null_size.
Proof. solve_decision. Defined.
#[global] Instance order_eq_dec : EqDecision order.
Proof. solve_decision. Defined.

(** [cudf::size_type], a 32-bit signed integer used for row indices. *)
Definition size_type : Type := Z.

(** ** Outcomes of device code

    A call either returns a value, or trips [release_assert] (which stops the
    whole kernel), or reads an array past its end (no defined behaviour).
    A call expression that no overload accepts has no outcome at run time:
    the compiler rejects the program; [No_overload] stands for it. *)
Inductive outcome (A : Type) : Type :=
  | Returns (a : A)
  | Aborts (msg : string)
  | Undefined
  | No_overload.
Arguments Returns {A} a.
Arguments Aborts {A} msg.
Arguments Undefined {A}.
Arguments No_overload {A}.

#[global] Instance outcome_bind : MBind outcome := fun A B k m =>
  match m with
  | Returns a => k a
  | Aborts msg => Aborts msg
  | Undefined => Undefined
  | No_overload => No_overload
  end.

(** Indexing an array of known length; past the end nothing is defined. *)
Definition at_index {A : Type} (l : list A) (i : nat) : outcome A :=
  match l !! i with
  | Some a => Returns a
  | None => Undefined
  end.

(** Modelled from the spec: [release_assert] (utilities/release_assert.cuh is
    not part of the sources at hand).  The design notes call it an
    unconditional, unrecoverable abort when its condition is false; a true
    condition lets execution continue. *)
Definition release_assert (cond : bool) (msg : string) : outcome unit :=
  if cond then Returns tt else Aborts msg.

(** Modelled from the spec: [CUDF_EXPECTS] (its header is not part of the
    sources at hand): a false condition raises [cudf::logic_error] with the
    given reason; a true one raises nothing. *)
Definition CUDF_EXPECTS (cond : bool) (reason : string) : option string :=
  if cond then None else Some reason.

(** ** Element types

    The set of type tags, the C++ type bound to each tag, the trait
    [cudf::is_relationally_comparable<Element, Element>()] and each type's
    native [operator<] come from cudf/types.hpp and cudf/utils/traits.hpp;
    they are a parameter of the development. *)
Class TypeTraits (type_id : Type) : Type := {
  Element : type_id -> Type;
  is_relationally_comparable : type_id -> bool;
  less : forall t : type_id, Element t -> Element t -> bool
}.

Section RowOperators.

Context {type_id : Type} `{TypeTraits type_id}.

(** ** Views *)

(** Modelled from the spec: [column_device_view]
    (cudf/column/column_device_view.cuh is not part of the sources at hand),
    as far as the comparators read it: the type tag [type()], the typed read
    [data<T>()[i]] of the data buffer, and the validity accessor, absent
    ([nullptr]) when the column is not nullable.  A validity bit that is set
    means the element is valid. *)
Record column_device_view : Type := {
  type : type_id;
  data : forall t : type_id, size_type -> Element t;
  null_mask : option (size_type -> bool)
}.

Definition nullable (c : column_device_view) : bool :=
  match null_mask c with Some _ => true | None => false end.

(** [is_null(i)] is only ever evaluated behind [nullable() and ...]. *)
Definition is_null (c : column_device_view) (element_index : size_type) : bool :=
  match null_mask c with Some valid => negb (valid element_index) | None => false end.

(** Modelled from the spec: [table_device_view]
    (cudf/table/table_device_view.cuh is not part of the sources at hand):
    the columns, most significant key first, and the row count they share. *)
Record table_device_view : Type := {
  _columns : list column_device_view;
  _num_rows : size_type
}.

Definition num_columns (t : table_device_view) : size_type :=
  Z.of_nat (length (_columns t)).

Definition column (t : table_device_view) (i : nat) : outcome column_device_view :=
  at_index (_columns t) i.

(** ** element_relational_comparator *)

(** Lines 86-94: read both elements as [Element] and compare them with the
    type's [operator<]. *)
Definition compare_elements (t : type_id) (lhs_element rhs_element : Element t)
  : weak_ordering :=
  if less t lhs_element rhs_element then LESS
  else if less t rhs_element lhs_element then GREATER
  else EQUIVALENT.

(** The overload for relationally comparable [Element] (template argument
    [t]); [has_nulls] is the template flag of the functor. *)
Definition element_relational_comparator (has_nulls : bool) (t : type_id)
    (lhs : column_device_view) (lhs_element_index : size_type)
    (rhs : column_device_view) (rhs_element_index : size_type)
    (size_of_nulls : null_size) : weak_ordering :=
  let values :=
    let lhs_element := data lhs t lhs_element_index in
    let rhs_element := data rhs t rhs_element_index in
    compare_elements t lhs_element rhs_element in
  if has_nulls then
    let lhs_is_null := nullable lhs && is_null lhs lhs_element_index in
    let rhs_is_null := nullable rhs && is_null rhs rhs_element_index in
    if lhs_is_null && rhs_is_null then EQUIVALENT
    else if lhs_is_null then
      (if bool_decide (size_of_nulls = LOWEST) then LESS else GREATER)
    else if rhs_is_null then
      (if bool_decide (size_of_nulls = HIGHEST) then LESS else GREATER)
    else values
  else values.

(** The overload for an [Element] that is not relationally comparable: it
    asserts [false && "..."] (a string literal counts as true) and has no
    return statement.  It takes four arguments: no [null_size]. *)
Definition element_relational_comparator_uncomparable
    (lhs : column_device_view) (lhs_element_index : size_type)
    (rhs : column_device_view) (rhs_element_index : size_type)
  : outcome weak_ordering :=
  release_assert (false && true)
    "Attempted to compare elements of uncomparable types." ≫= λ _,
  Undefined.

(** Modelled from the spec: [cudf::exp::type_dispatcher]
    (cudf/utils/type_dispatcher.hpp is not part of the sources at hand).  It
    binds the runtime tag to its C++ type and calls the functor's templated
    call operator once with the arguments unchanged, here the five arguments
    of lines 169-172 and 174-177.  Overload resolution then looks for a body:
    for a relationally comparable type it is the first overload (five
    parameters, lines 64-70); for any other type the first overload is
    disabled and the second one takes four parameters (lines 100-103), so
    that no overload accepts the call. *)
Definition type_dispatcher (has_nulls : bool) (dtype : type_id)
    (a : column_device_view) (a_index : size_type)
    (b : column_device_view) (b_index : size_type)
    (size_of_nulls : null_size) : outcome weak_ordering :=
  if is_relationally_comparable dtype
  then Returns (element_relational_comparator has_nulls dtype
                  a a_index b b_index size_of_nulls)
  else No_overload.

(** ** row_lexicographic_comparator *)

(** The data members of the class; [_column_order] is [None] for [nullptr]. *)
Record row_lexicographic_comparator : Type := {
  _lhs : table_device_view;
  _rhs : table_device_view;
  _size_of_nulls : null_size;
  _column_order : option (list order)
}.

(** What a constructor call yields: the object, or [cudf::logic_error]. *)
Inductive construction : Type :=
  | Constructed (c : row_lexicographic_comparator)
  | logic_error (msg : string).

(** The constructor: the member initialisers, then the check of the column
    counts (its [@throws] line: [cudf::logic_error] if
    [lhs.num_columns() != rhs.num_columns()]). *)
Definition make_row_lexicographic_comparator
    (lhs rhs : table_device_view) (size_of_nulls : null_size)
    (column_order : option (list order)) : construction :=
  let this := {| _lhs := lhs; _rhs := rhs;
                 _size_of_nulls := size_of_nulls;
                 _column_order := column_order |} in
  match CUDF_EXPECTS (bool_decide (num_columns (_lhs this) = num_columns (_rhs this)))
          "Mismatched number of columns." with
  | Some reason => logic_error reason
  | None => Constructed this
  end.

(** Lines 163-164: the direction of column [i]. *)
Definition ascending_at (c : row_lexicographic_comparator) (i : nat) : outcome bool :=
  match _column_order c with
  | None => Returns true
  | Some column_order =>
      o ← at_index column_order i;
      Returns (bool_decide (o = ASCENDING))
  end.

(** Lines 163-178: the [state] computed for column [i]. *)
Definition column_state (has_nulls : bool) (c : row_lexicographic_comparator)
    (lhs_index rhs_index : size_type) (i : nat) : outcome weak_ordering :=
  ascending ← ascending_at c i;
  lhs_col ← column (_lhs c) i;
  rhs_col ← column (_rhs c) i;
  if (ascending : bool)
  then type_dispatcher has_nulls (type lhs_col)
         lhs_col lhs_index rhs_col rhs_index (_size_of_nulls c)
  else type_dispatcher has_nulls (type lhs_col)
         rhs_col rhs_index lhs_col lhs_index (_size_of_nulls c).

(** The [for] loop of the call operator, with [remaining] iterations left
    before [i] reaches [num_columns()]; [i] counts up from 0 and stays below
    that [size_type] value, so it never wraps. *)
Fixpoint compare_columns (has_nulls : bool) (c : row_lexicographic_comparator)
    (lhs_index rhs_index : size_type) (remaining : nat) (i : nat) : outcome bool :=
  match remaining with
  | O => Returns false
  | S remaining' =>
      state ← column_state has_nulls c lhs_index rhs_index i;
      match state with
      | EQUIVALENT =>
          compare_columns has_nulls c lhs_index rhs_index remaining' (S i)
      | _ => Returns (if bool_decide (state = LESS) then true else false)
      end
  end.

(** [operator()(lhs_index, rhs_index)]: is the row of [_lhs] less than the
    row of [_rhs]? *)
Definition row_lexicographic_comparator_call (has_nulls : bool)
    (c : row_lexicographic_comparator) (lhs_index rhs_index : size_type)
  : outcome bool :=
  compare_columns has_nulls c lhs_index rhs_index
    (Z.to_nat (num_columns (_lhs c))) 0.

End RowOperators.

Arguments column_device_view type_id {_}.
Arguments table_device_view type_id {_}.
Arguments row_lexicographic_comparator type_id {_}.
Arguments construction type_id {_}.
Arguments Constructed {type_id _} c.
Arguments logic_error {type_id _} msg.

(** ** A small instance of the element types

    Three tags are enough to run the comparators on concrete tables: a
    32-bit integer, a double (IEEE 754 binary64, whose [operator<] is false
    whenever an operand is NaN) and a type without [operator<]. *)
Module Sample.

Inductive type_id : Type := INT32 | FLOAT64 | OPAQUE.

(** The C++ type bound to each tag. *)
Definition element_type (t : type_id) : Type :=
  match t with INT32 => Z | FLOAT64 => float | OPAQUE => unit end.

(** [operator<] of each type ([OPAQUE] has none; the entry is never used). *)
Definition element_less (t : type_id) : element_type t -> element_type t -> bool :=
  match t with
  | INT32 => Z.ltb
  | FLOAT64 => PrimFloat.ltb
  | OPAQUE => fun _ _ => false
  end.

#[global] Instance sample_traits : TypeTraits type_id := {|
  Element := element_type;
  is_relationally_comparable t :=
    match t with OPAQUE => false | _ => true end;
  less := element_less
|}.

(** The element of a host vector that a device buffer holds at index [i]. *)
Definition buffer {A : Type} (values : list A) (filler : A) (i : size_type) : A :=
  nth (Z.to_nat i) values filler.

(** A column of 32-bit integers over [values]; [valid] is its validity mask. *)
Definition int32_column (values : list Z) (valid : option (list bool))
  : column_device_view type_id :=
  {| type := INT32;
     data t :=
       match t return size_type -> Element t with
       | INT32 => buffer values 0
       | FLOAT64 => fun _ => PrimFloat.zero
       | OPAQUE => fun _ => tt
       end;
     null_mask := (fun bits => buffer bits true) <$> valid |}.

(** A column of doubles. *)
Definition float64_column (values : list float) (valid : option (list bool))
  : column_device_view type_id :=
  {| type := FLOAT64;
     data t :=
       match t return size_type -> Element t with
       | INT32 => fun _ => 0
       | FLOAT64 => buffer values PrimFloat.zero
       | OPAQUE => fun _ => tt
       end;
     null_mask := (fun bits => buffer bits true) <$> valid |}.

(** A column of a type that cannot be compared. *)
Definition opaque_column : column_device_view type_id :=
  {| type := OPAQUE;
     data t :=
       match t return size_type -> Element t with
       | INT32 => fun _ => 0
       | FLOAT64 => fun _ => PrimFloat.zero
       | OPAQUE => fun _ => tt
       end;
     null_mask := None |}.

Definition table (cols : list (column_device_view type_id)) (rows : Z)
  : table_device_view type_id :=
  {| _columns := cols; _num_rows := rows |}.

(** The comparator object for two tables (the constructor's initialisers). *)
Definition comparator (lhs rhs : table_device_view type_id)
    (size_of_nulls : null_size) (column_order : option (list order))
  : row_lexicographic_comparator type_id :=
  {| _lhs := lhs; _rhs := rhs;
     _size_of_nulls := size_of_nulls; _column_order := column_order |}.

(** Two integer key columns, rows (3,1), (1,2), (1,1). *)
Definition two_keys : table_device_view type_id :=
  table [int32_column [3; 1; 1] None; int32_column [1; 2; 1] None] 3.

(** Two integer key columns, rows (1,5), (1,2), (2,9). *)
Definition tie_table : table_device_view type_id :=
  table [int32_column [1; 1; 2] None; int32_column [5; 2; 9] None] 3.

(** One nullable integer column holding null, 5, null, 2. *)
Definition nullable_ints : column_device_view type_id :=
  int32_column [0; 5; 0; 2] (Some [false; true; false; true]).

(** One nullable integer column whose two elements, 7 and 9, are both null. *)
Definition all_null : column_device_view type_id :=
  int32_column [7; 9] (Some [false; false]).

(** One nullable integer column holding a null (over the datum 5) and 3. *)
Definition null_then_three : column_device_view type_id :=
  int32_column [5; 3] (Some [false; true]).

(** A double column holding 2.0, NaN, 1.0 and an integer column 1, 2, 3. *)
Definition nan_table : table_device_view type_id :=
  table [float64_column [2%float; nan; 1%float] None;
         int32_column [1; 2; 3] None] 3.

(** Two rows holding the same keys, (4,7) and (4,7). *)
Definition twin_rows : table_device_view type_id :=
  table [int32_column [4; 4] None; int32_column [7; 7] None] 2.

(** The two key columns of [tie_table], each as a table of its own. *)
Definition first_key : table_device_view type_id :=
  table [int32_column [1; 1; 2] None] 3.
Definition second_key : table_device_view type_id :=
  table [int32_column [5; 2; 9] None] 3.

(** A column of doubles without NaN, 2.5, 1.0, 2.5, and an integer column
    3, 2, 1. *)
Definition float_keys : table_device_view type_id :=
  table [float64_column [2.5%float; 1%float; 2.5%float] None;
         int32_column [3; 2; 1] None] 3.

End Sample.

(** * Vocabulary of the properties *)

Section Vocabulary.

Context {type_id : Type} `{TypeTraits type_id}.

(** The element at index [i] of a column is null: the column has a validity
    mask and the element's bit is clear. *)
Definition null_at (c : column_device_view type_id) (i : size_type) : Prop :=
  exists valid, null_mask c = Some valid /\ valid i = false.

(** The same column with another validity mask. *)
Definition with_null_mask (c : column_device_view type_id)
    (mask : option (size_type -> bool)) : column_device_view type_id :=
  {| type := type c; data := data c; null_mask := mask |}.

(** The direction the comparator uses for column [i]: ascending when no
    order array was given. *)
Definition direction_at (column_order : option (list order)) (i : nat)
  : option order :=
  match column_order with
  | None => Some ASCENDING
  | Some o => o !! i
  end.

(** The order array, when there is one, has one flag per column
    ("the same length as a row"). *)
Definition order_covers (column_order : option (list order))
    (t : table_device_view type_id) : Prop :=
  match column_order with
  | None => True
  | Some o => length o = length (_columns t)
  end.

(** The effective direction flags of a comparator, one per column. *)
Definition directions (c : row_lexicographic_comparator type_id) : list order :=
  match _column_order c with
  | None => replicate (length (_columns (_lhs c))) ASCENDING
  | Some o => o
  end.

(** The same comparator with the flag of column [i] set to descending. *)
Definition flip_to_descending (i : nat) (c : row_lexicographic_comparator type_id)
  : row_lexicographic_comparator type_id :=
  {| _lhs := _lhs c; _rhs := _rhs c; _size_of_nulls := _size_of_nulls c;
     _column_order := Some (<[i := DESCENDING]> (directions c)) |}.

(** The verdict seen from the other operand. *)
Definition converse (v : weak_ordering) : weak_ordering :=
  match v with LESS => GREATER | EQUIVALENT => EQUIVALENT | GREATER => LESS end.

(** [operator<] of type [t] never holds in both directions. *)
Definition asymmetric (t : type_id) : Prop :=
  forall x y : Element t, less t x y = true -> less t y x = false.

(** The other null policy. *)
Definition opposite (p : null_size) : null_size :=
  match p with LOWEST => HIGHEST | HIGHEST => LOWEST end.

(** One sort key of a pair of rows: the two values of a column, read at the
    column's element type, and the column's direction. *)
Inductive key : Type :=
  | Key (t : type_id) (x y : Element t) (direction : order).

(** The keys of row [li] of [tl] and row [ri] of [tr], in column order; both
    values of a column are read at the type of the left column, as the
    dispatch does. *)
Definition row_keys (tl tr : table_device_view type_id) (dirs : list order)
    (li ri : size_type) : list key :=
  zip_with (fun cols d =>
              Key (type cols.1) (data cols.1 (type cols.1) li)
                  (data cols.2 (type cols.1) ri) d)
           (zip (_columns tl) (_columns tr)) dirs.

(** Reference lexicographic comparison, after the words of the spec: compare
    the typed values column by column; the first column whose values differ
    under the type's ordering decides, an ascending column for the row with
    the smaller value and a descending column for the row with the larger
    one; rows whose values never differ are not less. *)
Fixpoint lexicographic_less (keys : list key) : bool :=
  match keys with
  | [] => false
  | Key t x y ASCENDING :: rest =>
      if less t x y then true
      else if less t y x then false
      else lexicographic_less rest
  | Key t x y DESCENDING :: rest =>
      if less t y x then true
      else if less t x y then false
      else lexicographic_less rest
  end.

(** [operator<] of type [t] is a strict weak ordering: irreflexive,
    transitive, and with a transitive incomparability. *)
Record strict_weak_order (t : type_id) : Prop := {
  swo_irrefl : forall x, less t x x = false;
  swo_trans : forall x y z,
    less t x y = true -> less t y z = true -> less t x z = true;
  swo_incomparable : forall x y z,
    less t x y = false -> less t y x = false ->
    less t y z = false -> less t z y = false ->
    less t x z = false /\ less t z x = false
}.

(** The data that the element comparator reads in column [col] at the rows
    of [rows]: with [has_nulls = true] the datum under a null element is not
    read. *)
Definition read_values (has_nulls : bool) (rows : size_type -> Prop)
    (col : column_device_view type_id) (x : Element (type col)) : Prop :=
  exists r, rows r /\ (has_nulls = true -> ~ null_at col r)
            /\ data col (type col) r = x.

(** [operator<] of type [t] is a strict weak ordering on the values of [V]:
    irreflexive, transitive, and with a transitive incomparability there. *)
Record strict_weak_order_on (t : type_id) (V : Element t -> Prop) : Prop := {
  swoo_irrefl : forall x, V x -> less t x x = false;
  swoo_trans : forall x y z, V x -> V y -> V z ->
    less t x y = true -> less t y z = true -> less t x z = true;
  swoo_incomparable : forall x y z, V x -> V y -> V z ->
    less t x y = false -> less t y x = false ->
    less t y z = false -> less t z y = false ->
    less t x z = false /\ less t z x = false
}.

(** A tri-state comparison of row indices that behaves as a total preorder
    on the rows of [rows]: swapping the operands gives the converse verdict,
    and "not GREATER" is transitive. *)
Record total_preorder_on (rows : size_type -> Prop)
    (g : size_type -> size_type -> weak_ordering) : Prop := {
  tp_converse : forall a b, rows a -> rows b -> g b a = converse (g a b);
  tp_trans : forall a b c, rows a -> rows b -> rows c ->
    g a b <> GREATER -> g b c <> GREATER -> g a c <> GREATER
}.

(** Column [j] of a comparator either never yields a state, whatever the
    rows, or yields for every pair of rows the verdict of a comparison that
    is a total preorder on the rows of [rows]. *)
Definition stage_ordered_on (rows : size_type -> Prop) (has_nulls : bool)
    (c : row_lexicographic_comparator type_id) (j : nat) : Prop :=
  (forall a b v, column_state has_nulls c a b j <> Returns v)
  \/ (exists g, total_preorder_on rows g
               /\ forall a b, column_state has_nulls c a b j = Returns (g a b)).

(** The same comparator with another order array. *)
Definition with_column_order (c : row_lexicographic_comparator type_id)
    (column_order : option (list order)) : row_lexicographic_comparator type_id :=
  {| _lhs := _lhs c; _rhs := _rhs c; _size_of_nulls := _size_of_nulls c;
     _column_order := column_order |}.

(** The same comparator with another null policy. *)
Definition with_size_of_nulls (c : row_lexicographic_comparator type_id)
    (size_of_nulls : null_size) : row_lexicographic_comparator type_id :=
  {| _lhs := _lhs c; _rhs := _rhs c; _size_of_nulls := size_of_nulls;
     _column_order := _column_order c |}.

(** The comparator over the same two tables taken in the other order. *)
Definition swapped (c : row_lexicographic_comparator type_id)
  : row_lexicographic_comparator type_id :=
  {| _lhs := _rhs c; _rhs := _lhs c; _size_of_nulls := _size_of_nulls c;
     _column_order := _column_order c |}.

Definition opposite_direction (d : order) : order :=
  match d with ASCENDING => DESCENDING | DESCENDING => ASCENDING end.

(** The comparator over the two tables taken in the other order, with the
    direction of every column reversed. *)
Definition reversed (c : row_lexicographic_comparator type_id)
  : row_lexicographic_comparator type_id :=
  {| _lhs := _rhs c; _rhs := _lhs c; _size_of_nulls := _size_of_nulls c;
     _column_order := Some (opposite_direction <$> directions c) |}.

(** The comparator whose key columns are those of [c1] followed by those of
    [c2], each with its direction, under the null policy of [c1]. *)
Definition append_keys (c1 c2 : row_lexicographic_comparator type_id)
  : row_lexicographic_comparator type_id :=
  {| _lhs := {| _columns := _columns (_lhs c1) ++ _columns (_lhs c2);
                _num_rows := _num_rows (_lhs c1) |};
     _rhs := {| _columns := _columns (_rhs c1) ++ _columns (_rhs c2);
                _num_rows := _num_rows (_rhs c1) |};
     _size_of_nulls := _size_of_nulls c1;
     _column_order := Some (directions c1 ++ directions c2) |}.

(** The columns of the two tables of a comparator have, position by
    position, the same element type. *)
Definition same_schema (c : row_lexicographic_comparator type_id) : Prop :=
  forall j lc rc,
    _columns (_lhs c) !! j = Some lc -> _columns (_rhs c) !! j = Some rc ->
    type lc = type rc.

(** What the call makes of the first column state that is not a returned
    EQUIVALENT. *)
Definition verdict_of (s : outcome weak_ordering) : outcome bool :=
  match s with
  | Returns v => Returns (bool_decide (v = LESS))
  | Aborts msg => Aborts msg
  | Undefined => Undefined
  | No_overload => No_overload
  end.

End Vocabulary.

(** * Properties *)

Section Properties.

Context {type_id : Type} `{TypeTraits type_id}.

Implicit Types (lhs rhs : column_device_view type_id).

Lemma null_at_iff c i : null_at c i <-> nullable c && is_null c i = true.
Proof.
  unfold null_at, nullable, is_null. destruct (null_mask c) as [valid|]; simpl.
  - split.
    + intros (v & [= <-] & ->). reflexivity.
    + intros Hv. exists valid. split; [reflexivity|]. by destruct (valid i).
  - split; [intros (v & [=] & _) | discriminate].
Qed.

Lemma not_null_at_iff c i : ~ null_at c i <-> nullable c && is_null c i = false.
Proof. rewrite null_at_iff. by destruct (nullable c && is_null c i). Qed.

Lemma constructed_inv tl tr p o c :
  make_row_lexicographic_comparator tl tr p o = Constructed c ->
  c = {| _lhs := tl; _rhs := tr; _size_of_nulls := p; _column_order := o |}
  /\ length (_columns tl) = length (_columns tr).
Proof.
  unfold make_row_lexicographic_comparator, CUDF_EXPECTS, num_columns. simpl.
  case_bool_decide as Hn; [|discriminate].
  intros [= <-]. split; [reflexivity | lia].
Qed.

(** The state of a column whose two views and direction exist. *)
Lemma column_state_eq has_nulls c li ri i lc rc d :
  _columns (_lhs c) !! i = Some lc ->
  _columns (_rhs c) !! i = Some rc ->
  direction_at (_column_order c) i = Some d ->
  column_state has_nulls c li ri i =
    match d with
    | ASCENDING =>
        type_dispatcher has_nulls (type lc) lc li rc ri (_size_of_nulls c)
    | DESCENDING =>
        type_dispatcher has_nulls (type lc) rc ri lc li (_size_of_nulls c)
    end.
Proof.
  intros Hl Hr Hd. unfold column_state, ascending_at, column, at_index.
  rewrite Hl, Hr. unfold direction_at in Hd.
  destruct (_column_order c) as [o|]; simpl.
  - rewrite Hd. simpl. by destruct d.
  - by injection Hd as <-.
Qed.

Lemma direction_at_covered o (t : table_device_view type_id) i :
  order_covers o t -> (i < length (_columns t))%nat ->
  exists d, direction_at o i = Some d.
Proof.
  intros Hc Hi. destruct o as [o|]; simpl in *; [|by eexists].
  apply lookup_lt_is_Some_2. lia.
Qed.

(** A column state that is a value comes from the comparable overload. *)
Lemma column_state_returns has_nulls c li ri i v :
  column_state has_nulls c li ri i = Returns v ->
  exists lc rc d,
    _columns (_lhs c) !! i = Some lc /\ _columns (_rhs c) !! i = Some rc
    /\ direction_at (_column_order c) i = Some d
    /\ is_relationally_comparable (type lc) = true
    /\ v = match d with
           | ASCENDING =>
               element_relational_comparator has_nulls (type lc)
                 lc li rc ri (_size_of_nulls c)
           | DESCENDING =>
               element_relational_comparator has_nulls (type lc)
                 rc ri lc li (_size_of_nulls c)
           end.
Proof.
  intros Hs.
  destruct (direction_at (_column_order c) i) as [d|] eqn:Hd.
  2:{ unfold column_state, ascending_at, direction_at, at_index in *.
      destruct (_column_order c); [|done]. by rewrite Hd in Hs. }
  destruct (_columns (_lhs c) !! i) as [lc|] eqn:Hl.
  2:{ unfold column_state, column, at_index in Hs. rewrite Hl in Hs.
      by destruct (ascending_at c i). }
  destruct (_columns (_rhs c) !! i) as [rc|] eqn:Hr.
  2:{ unfold column_state, column, at_index in Hs. rewrite Hl, Hr in Hs.
      by destruct (ascending_at c i). }
  rewrite (column_state_eq _ _ _ _ _ _ _ _ Hl Hr Hd) in Hs.
  exists lc, rc, d. unfold type_dispatcher in Hs.
  destruct (is_relationally_comparable (type lc)).
  - repeat (split; [done|]). by destruct d; injection Hs as <-.
  - by destruct d.
Qed.

(** *** The loop *)

Section Loop.

Variables (has_nulls : bool) (c : row_lexicographic_comparator type_id)
          (li ri : size_type).

Let state (j : nat) : outcome weak_ordering := column_state has_nulls c li ri j.
Let loop (remaining i : nat) : outcome bool :=
  compare_columns has_nulls c li ri remaining i.

Lemma compare_columns_skip remaining i :
  state i = Returns EQUIVALENT ->
  loop (S remaining) i = loop remaining (S i).
Proof. unfold loop, state. simpl. by intros ->. Qed.

Lemma compare_columns_decide remaining i v :
  state i = Returns v -> v <> EQUIVALENT ->
  loop (S remaining) i = Returns (bool_decide (v = LESS)).
Proof.
  unfold loop, state. simpl. intros -> Hv. simpl.
  destruct v; try done.
Qed.

Lemma compare_columns_stuck remaining i :
  (forall v, state i <> Returns v) ->
  forall b, loop (S remaining) i <> Returns b.
Proof.
  unfold loop, state. simpl. intros Hs b.
  destruct (column_state has_nulls c li ri i) as [v| | |]; simpl; try done.
  by destruct (Hs v).
Qed.

Lemma compare_columns_all_equivalent remaining i :
  (forall j, (i <= j < i + remaining)%nat -> state j = Returns EQUIVALENT) ->
  loop remaining i = Returns false.
Proof.
  revert i. induction remaining as [|remaining IH]; intros i Hall; [done|].
  rewrite compare_columns_skip by (apply Hall; lia).
  apply IH. intros j Hj. apply Hall. lia.
Qed.

Lemma compare_columns_first_decides remaining i k v :
  (k < remaining)%nat ->
  (forall j, (i <= j < i + k)%nat -> state j = Returns EQUIVALENT) ->
  state (i + k)%nat = Returns v -> v <> EQUIVALENT ->
  loop remaining i = Returns (bool_decide (v = LESS)).
Proof.
  revert i remaining.
  induction k as [|k IH]; intros i remaining Hk Hall Hv Hne.
  - destruct remaining as [|remaining]; [lia|].
    rewrite Nat.add_0_r in Hv. by apply compare_columns_decide.
  - destruct remaining as [|remaining]; [lia|].
    rewrite compare_columns_skip by (apply Hall; lia).
    apply IH; [lia| |by replace (S i + k)%nat with (i + S k)%nat by lia|done].
    intros j Hj. apply Hall. lia.
Qed.

Lemma compare_columns_never_less remaining i :
  (forall j v, state j = Returns v -> v = EQUIVALENT) ->
  loop remaining i <> Returns true.
Proof.
  intros Hall. revert i.
  induction remaining as [|remaining IH]; intros i; [done|].
  destruct (state i) as [v| | |] eqn:Hs.
  - rewrite (Hall _ _ Hs) in Hs. rewrite compare_columns_skip by done. apply IH.
  - apply compare_columns_stuck. intros v. unfold state in *. by rewrite Hs.
  - apply compare_columns_stuck. intros v. unfold state in *. by rewrite Hs.
  - apply compare_columns_stuck. intros v. unfold state in *. by rewrite Hs.
Qed.

End Loop.

(** ** The constructor *)

(** C3: constructing a row comparator from two tables is rejected (with
    [cudf::logic_error], so that no comparator object exists to compare
    with) if and only if the two tables have differing column counts; with
    equal column counts it succeeds and stores its four arguments. *)
Theorem constructor_rejects_iff_counts_differ
    (tl tr : table_device_view type_id) (size_of_nulls : null_size)
    (column_order : option (list order)) :
  ((exists msg, make_row_lexicographic_comparator tl tr size_of_nulls column_order
                = logic_error msg)
   <-> num_columns tl <> num_columns tr)
  /\ (make_row_lexicographic_comparator tl tr size_of_nulls column_order
       = Constructed {| _lhs := tl; _rhs := tr;
                        _size_of_nulls := size_of_nulls;
                        _column_order := column_order |}
      <-> num_columns tl = num_columns tr).
Proof.
  unfold make_row_lexicographic_comparator, CUDF_EXPECTS. simpl.
  case_bool_decide as Hn; split; split; try done.
  - intros [msg [=]].
  - intros _. by eexists.
Qed.

(** ** The element comparator *)

Lemma element_without_nulls has_nulls t lhs (li : size_type) rhs (ri : size_type) p :
  ~ null_at lhs li -> ~ null_at rhs ri ->
  element_relational_comparator has_nulls t lhs li rhs ri p
  = compare_elements t (data lhs t li) (data rhs t ri).
Proof.
  intros Hl%not_null_at_iff Hr%not_null_at_iff.
  unfold element_relational_comparator. rewrite Hl, Hr.
  by destruct has_nulls.
Qed.

(** C4: the overload for element types without a relational ordering trips
    the fatal assertion whenever it is called, with its four arguments, and
    yields no verdict.  The dispatch of the row comparator passes five
    arguments and never selects it: for such a type no overload accepts the
    call, so the dispatch yields no LESS, EQUIVALENT or GREATER value, and
    raises no abort either. *)
Theorem uncomparable_dispatch_finds_no_overload (has_nulls : bool) (t : type_id)
    lhs (li : size_type) rhs (ri : size_type) (size_of_nulls : null_size) :
  is_relationally_comparable t = false ->
  element_relational_comparator_uncomparable lhs li rhs ri
    = Aborts "Attempted to compare elements of uncomparable types."
  /\ type_dispatcher has_nulls t lhs li rhs ri size_of_nulls = No_overload
  /\ (forall msg : string,
        type_dispatcher has_nulls t lhs li rhs ri size_of_nulls <> Aborts msg)
  /\ (forall v : weak_ordering,
        type_dispatcher has_nulls t lhs li rhs ri size_of_nulls <> Returns v).
Proof.
  intros Ht. unfold type_dispatcher. rewrite Ht.
  split; [reflexivity|]. split; [reflexivity|].
  split; [intros msg | intros v]; discriminate.
Qed.

(** C2, amended: dispatched to a relationally comparable type, the element
    comparator returns, in the null-aware instantiation ([has_nulls = true],
    the default), EQUIVALENT when both elements are null, LESS under
    nulls-lowest and GREATER otherwise when only the left one is null, and
    the symmetric result when only the right one is null; and, in either
    instantiation, when neither is null, LESS if left < right, GREATER if
    right < left and EQUIVALENT otherwise. *)
Theorem element_comparator_null_aware (has_nulls : bool) (t : type_id)
    lhs (li : size_type) rhs (ri : size_type) (size_of_nulls : null_size) :
  is_relationally_comparable t = true ->
  let verdict := type_dispatcher has_nulls t lhs li rhs ri size_of_nulls in
  let x := data lhs t li in
  let y := data rhs t ri in
  (has_nulls = true ->
     (null_at lhs li -> null_at rhs ri -> verdict = Returns EQUIVALENT)
     /\ (null_at lhs li -> ~ null_at rhs ri ->
           verdict = Returns (match size_of_nulls with
                              | LOWEST => LESS | HIGHEST => GREATER end))
     /\ (~ null_at lhs li -> null_at rhs ri ->
           verdict = Returns (match size_of_nulls with
                              | LOWEST => GREATER | HIGHEST => LESS end)))
  /\ (~ null_at lhs li -> ~ null_at rhs ri ->
        (less t x y = true -> verdict = Returns LESS)
        /\ (less t x y = false -> less t y x = true -> verdict = Returns GREATER)
        /\ (less t x y = false -> less t y x = false ->
              verdict = Returns EQUIVALENT)).
Proof.
  intros Ht verdict x y. subst verdict x y.
  unfold type_dispatcher. rewrite Ht. split.
  - intros ->. unfold element_relational_comparator. repeat split.
    + intros Hl%null_at_iff Hr%null_at_iff. by rewrite Hl, Hr.
    + intros Hl%null_at_iff Hr%not_null_at_iff. rewrite Hl, Hr.
      by destruct size_of_nulls.
    + intros Hl%not_null_at_iff Hr%null_at_iff. rewrite Hl, Hr.
      by destruct size_of_nulls.
  - intros Hl Hr. rewrite element_without_nulls by done.
    unfold compare_elements.
    repeat split; [intros -> | intros -> -> | intros -> ->]; done.
Qed.

(** C10: with [has_nulls = false] the verdict of an element comparison is
    the comparison of the two data values read at the two indices, so it is
    the same whatever validity masks the two columns carry and whatever the
    null policy is, also where a mask marks an element null. *)
Theorem no_nulls_instance_reads_data_only (t : type_id)
    lhs (li : size_type) rhs (ri : size_type) (size_of_nulls : null_size) :
  element_relational_comparator false t lhs li rhs ri size_of_nulls
    = compare_elements t (data lhs t li) (data rhs t ri)
  /\ forall (mask_l mask_r : option (size_type -> bool)) (other_policy : null_size),
       element_relational_comparator false t
         (with_null_mask lhs mask_l) li (with_null_mask rhs mask_r) ri other_policy
       = element_relational_comparator false t lhs li rhs ri size_of_nulls
       /\ type_dispatcher false t
            (with_null_mask lhs mask_l) li (with_null_mask rhs mask_r) ri
            other_policy
          = type_dispatcher false t lhs li rhs ri size_of_nulls.
Proof.
  split; [reflexivity|].
  intros mask_l mask_r other_policy. unfold type_dispatcher.
  split; [reflexivity|].
  destruct (is_relationally_comparable t); reflexivity.
Qed.

(** ** The row comparator *)

(** C1: for two tables with equal column counts (a constructed comparator)
    and any two row indices, every column position holds a column of each
    table; the state of a column is the dispatched element comparison, with
    the operands swapped on a descending column; the call walks the columns
    from the first, skips those whose state is EQUIVALENT, and returns
    whether the first other state is LESS, whatever the later columns hold;
    and it returns false when every column's state is EQUIVALENT. *)
Theorem row_comparator_first_deciding_column (has_nulls : bool)
    (tl tr : table_device_view type_id) (p : null_size)
    (o : option (list order)) (c : row_lexicographic_comparator type_id)
    (li ri : size_type) :
  make_row_lexicographic_comparator tl tr p o = Constructed c ->
  let state := column_state has_nulls c li ri in
  let n := length (_columns tl) in
  (forall i, (i < n)%nat ->
     is_Some (_columns tl !! i) /\ is_Some (_columns tr !! i))
  /\ (forall i lc rc d,
        _columns tl !! i = Some lc -> _columns tr !! i = Some rc ->
        direction_at o i = Some d ->
        state i = match d with
                  | ASCENDING =>
                      type_dispatcher has_nulls (type lc) lc li rc ri p
                  | DESCENDING =>
                      type_dispatcher has_nulls (type lc) rc ri lc li p
                  end)
  /\ (forall k v, (k < n)%nat ->
        (forall j, (j < k)%nat -> state j = Returns EQUIVALENT) ->
        state k = Returns v -> v <> EQUIVALENT ->
        row_lexicographic_comparator_call has_nulls c li ri
          = Returns (bool_decide (v = LESS)))
  /\ ((forall j, (j < n)%nat -> state j = Returns EQUIVALENT) ->
        row_lexicographic_comparator_call has_nulls c li ri = Returns false).
Proof.
  intros [-> Hlen]%constructed_inv state n. subst state n.
  unfold row_lexicographic_comparator_call, num_columns. simpl.
  rewrite Nat2Z.id.
  split; [|split; [|split]].
  - intros i Hi. split; apply lookup_lt_is_Some_2; lia.
  - intros i lc rc d Hl Hr Hd. by apply column_state_eq.
  - intros k v Hk Hall Hv Hne.
    apply compare_columns_first_decides with (k := k); try done.
    intros j Hj. apply Hall. lia.
  - intros Hall. apply compare_columns_all_equivalent.
    intros j Hj. apply Hall. lia.
Qed.

(** An element never compares LESS or GREATER with itself when [operator<]
    is irreflexive at its value. *)
Lemma element_same_index_equivalent has_nulls t col (r : size_type) p :
  less t (data col t r) (data col t r) = false ->
  element_relational_comparator has_nulls t col r col r p = EQUIVALENT.
Proof.
  intros Hirr. unfold element_relational_comparator, compare_elements.
  rewrite Hirr.
  by destruct has_nulls, (nullable col && is_null col r).
Qed.

(** C5: with the same table on both sides, and [operator<] irreflexive on
    the element types of its columns, a row is never less than itself:
    the call never returns true for (r, r), and it returns false as soon as
    every column has a relationally comparable type and a direction flag. *)
Theorem row_comparator_irreflexive (has_nulls : bool)
    (tbl : table_device_view type_id) (p : null_size)
    (o : option (list order)) (c : row_lexicographic_comparator type_id)
    (r : size_type) :
  make_row_lexicographic_comparator tbl tbl p o = Constructed c ->
  (forall col, col ∈ _columns tbl -> forall x, less (type col) x x = false) ->
  row_lexicographic_comparator_call has_nulls c r r <> Returns true
  /\ (order_covers o tbl ->
      (forall col, col ∈ _columns tbl ->
         is_relationally_comparable (type col) = true) ->
      row_lexicographic_comparator_call has_nulls c r r = Returns false).
Proof.
  intros [-> _]%constructed_inv Hirr.
  unfold row_lexicographic_comparator_call, num_columns. simpl.
  rewrite Nat2Z.id. split.
  - apply compare_columns_never_less. intros j v Hs.
    apply column_state_returns in Hs as (lc & rc & d & Hl & Hr & _ & _ & ->).
    simpl in Hl, Hr. rewrite Hl in Hr. injection Hr as <-.
    apply list_elem_of_lookup_2 in Hl.
    destruct d; apply element_same_index_equivalent, Hirr, Hl.
  - intros Hcov Hcmp. apply compare_columns_all_equivalent.
    intros j Hj.
    destruct (lookup_lt_is_Some_2 (_columns tbl) j) as [col Hcol]; [lia|].
    destruct (direction_at_covered o tbl j Hcov) as [d Hd]; [lia|].
    rewrite (column_state_eq has_nulls _ r r j col col d) by done.
    apply list_elem_of_lookup_2 in Hcol.
    unfold type_dispatcher. rewrite (Hcmp col Hcol).
    destruct d; simpl; f_equal;
      apply element_same_index_equivalent, Hirr, Hcol.
Qed.

(** *** Rows without nulls *)

Lemma directions_lookup (c : row_lexicographic_comparator type_id) i :
  (i < length (_columns (_lhs c)))%nat ->
  directions c !! i = direction_at (_column_order c) i.
Proof.
  intros Hi. unfold directions, direction_at.
  destruct (_column_order c); [done|]. by apply lookup_replicate_2.
Qed.

Lemma row_keys_lookup (tl tr : table_device_view type_id) dirs li ri i lc rc d :
  _columns tl !! i = Some lc -> _columns tr !! i = Some rc ->
  dirs !! i = Some d ->
  row_keys tl tr dirs li ri !! i
  = Some (Key (type lc) (data lc (type lc) li) (data rc (type lc) ri) d).
Proof.
  intros Hl Hr Hd. unfold row_keys. rewrite lookup_zip_with.
  assert (zip (_columns tl) (_columns tr) !! i = Some (lc, rc)) as ->
    by by apply lookup_zip_Some.
  simpl. by rewrite Hd.
Qed.

(** C8: when no element of the two rows is null, the call returns the
    reference lexicographic comparison of the rows' typed values in column
    order with each column's direction applied; the null policy does not
    occur in the result.  (Every column has a relationally comparable type
    and a direction flag, so that every column can be compared.) *)
Theorem no_nulls_reduces_to_lexicographic (has_nulls : bool)
    (tl tr : table_device_view type_id) (p : null_size)
    (o : option (list order)) (c : row_lexicographic_comparator type_id)
    (li ri : size_type) :
  make_row_lexicographic_comparator tl tr p o = Constructed c ->
  order_covers o tl ->
  (forall col, col ∈ _columns tl ->
     is_relationally_comparable (type col) = true) ->
  (forall col, col ∈ _columns tl -> ~ null_at col li) ->
  (forall col, col ∈ _columns tr -> ~ null_at col ri) ->
  row_lexicographic_comparator_call has_nulls c li ri
  = Returns (lexicographic_less (row_keys tl tr (directions c) li ri)).
Proof.
  intros [-> Hlen]%constructed_inv Hcov Hcmp Hnl Hnr.
  set (c := {| _lhs := tl; _rhs := tr; _size_of_nulls := p; _column_order := o |}).
  set (keys := row_keys tl tr (directions c) li ri).
  unfold row_lexicographic_comparator_call, num_columns. simpl.
  rewrite Nat2Z.id.
  assert (Hgen : forall remaining i,
            (i + remaining = length (_columns tl))%nat ->
            compare_columns has_nulls c li ri remaining i
            = Returns (lexicographic_less (drop i keys))).
  { induction remaining as [|remaining IH]; intros i Hi.
    - rewrite drop_ge; [done|]. unfold keys, row_keys.
      rewrite length_zip_with, length_zip. lia.
    - destruct (lookup_lt_is_Some_2 (_columns tl) i) as [lc Hl]; [lia|].
      destruct (lookup_lt_is_Some_2 (_columns tr) i) as [rc Hr]; [lia|].
      destruct (direction_at_covered o tl i Hcov) as [d Hd]; [lia|].
      assert (Hk : keys !! i = Some (Key (type lc) (data lc (type lc) li)
                                       (data rc (type lc) ri) d)).
      { apply row_keys_lookup; try done.
        rewrite directions_lookup by (simpl; lia). done. }
      rewrite (drop_S _ _ _ Hk).
      simpl. rewrite (column_state_eq has_nulls c li ri i lc rc d) by done.
      unfold type_dispatcher.
      rewrite (Hcmp lc) by by eapply list_elem_of_lookup_2.
      assert (Hln : ~ null_at lc li) by by eapply Hnl, list_elem_of_lookup_2.
      assert (Hrn : ~ null_at rc ri) by by eapply Hnr, list_elem_of_lookup_2.
      specialize (IH (S i) ltac:(lia)).
      destruct d; simpl; rewrite element_without_nulls by done;
        unfold compare_elements.
      + destruct (less (type lc) (data lc (type lc) li) (data rc (type lc) ri));
          [done|].
        destruct (less (type lc) (data rc (type lc) ri) (data lc (type lc) li));
          done.
      + destruct (less (type lc) (data rc (type lc) ri) (data lc (type lc) li));
          [done|].
        destruct (less (type lc) (data lc (type lc) li) (data rc (type lc) ri));
          done. }
  apply Hgen. lia.
Qed.

(** *** Direction flags *)

(** Swapping the operands of an element comparison gives the converse
    verdict. *)
Lemma element_swap has_nulls t lhs (li : size_type) rhs (ri : size_type) p :
  asymmetric t ->
  element_relational_comparator has_nulls t rhs ri lhs li p
  = converse (element_relational_comparator has_nulls t lhs li rhs ri p).
Proof.
  intros Hasym. unfold element_relational_comparator, compare_elements.
  pose proof (Hasym (data lhs t li) (data rhs t ri)) as Hxy.
  destruct has_nulls, (nullable lhs && is_null lhs li),
    (nullable rhs && is_null rhs ri), p; simpl; try done;
    destruct (less t (data lhs t li) (data rhs t ri));
    try (rewrite Hxy by done); simpl; try done;
    by destruct (less t (data rhs t ri) (data lhs t li)).
Qed.

Lemma ascending_at_direction (c : row_lexicographic_comparator type_id) j :
  ascending_at c j
  = match direction_at (_column_order c) j with
    | Some d => Returns (bool_decide (d = ASCENDING))
    | None => Undefined
    end.
Proof.
  unfold ascending_at, direction_at, at_index.
  destruct (_column_order c) as [o|]; [|done].
  by destruct (o !! j).
Qed.

(** The state of a column depends on the comparator through its tables, its
    null policy and the direction of that column only. *)
Lemma column_state_ext has_nulls (c c' : row_lexicographic_comparator type_id)
    li ri j :
  _lhs c' = _lhs c -> _rhs c' = _rhs c -> _size_of_nulls c' = _size_of_nulls c ->
  direction_at (_column_order c') j = direction_at (_column_order c) j ->
  column_state has_nulls c' li ri j = column_state has_nulls c li ri j.
Proof.
  intros Hl Hr Hp Hd. unfold column_state.
  by rewrite !ascending_at_direction, Hl, Hr, Hp, Hd.
Qed.

Lemma flip_to_descending_other (c : row_lexicographic_comparator type_id) i j :
  i <> j -> (j < length (_columns (_lhs c)))%nat ->
  direction_at (_column_order (flip_to_descending i c)) j
  = direction_at (_column_order c) j.
Proof.
  intros Hij Hj. simpl.
  rewrite list_lookup_insert_ne by done. by apply directions_lookup.
Qed.

Lemma flip_to_descending_same (c : row_lexicographic_comparator type_id) i :
  (i < length (_columns (_lhs c)))%nat ->
  is_Some (direction_at (_column_order c) i) ->
  direction_at (_column_order (flip_to_descending i c)) i = Some DESCENDING.
Proof.
  intros Hi Hd. simpl. apply list_lookup_insert_eq.
  apply lookup_lt_is_Some. by rewrite directions_lookup.
Qed.

(** C7: let column [i] be ascending and let the flipped comparator differ
    only in that column [i] is descending.  The state of column [i] is the
    dispatched element comparison, and in the flipped comparator the same
    comparison with the two operands swapped.  When column [i] is the
    deciding (first non-EQUIVALENT) column, the flipped call returns the
    negation of the original verdict ([operator<] of that column's type being
    asymmetric); when an earlier column decides, both calls return the same
    verdict. *)
Theorem descending_flag_inverts_deciding_column (has_nulls : bool)
    (tl tr : table_device_view type_id) (p : null_size)
    (o : option (list order)) (c : row_lexicographic_comparator type_id)
    (li ri : size_type) (i : nat) :
  make_row_lexicographic_comparator tl tr p o = Constructed c ->
  direction_at o i = Some ASCENDING ->
  let flipped := flip_to_descending i c in
  let state := column_state has_nulls c li ri in
  (forall lc rc,
     _columns tl !! i = Some lc -> _columns tr !! i = Some rc ->
     state i = type_dispatcher has_nulls (type lc) lc li rc ri p
     /\ column_state has_nulls flipped li ri i
        = type_dispatcher has_nulls (type lc) rc ri lc li p)
  /\ (forall lc v,
        _columns tl !! i = Some lc -> asymmetric (type lc) ->
        (forall j, (j < i)%nat -> state j = Returns EQUIVALENT) ->
        state i = Returns v -> v <> EQUIVALENT ->
        row_lexicographic_comparator_call has_nulls c li ri
          = Returns (bool_decide (v = LESS))
        /\ row_lexicographic_comparator_call has_nulls flipped li ri
           = Returns (negb (bool_decide (v = LESS))))
  /\ (forall k v, (k < i)%nat ->
        (forall j, (j < k)%nat -> state j = Returns EQUIVALENT) ->
        state k = Returns v -> v <> EQUIVALENT ->
        row_lexicographic_comparator_call has_nulls flipped li ri
        = row_lexicographic_comparator_call has_nulls c li ri).
Proof.
  intros [-> Hlen]%constructed_inv Hasc flipped state.
  set (c := {| _lhs := tl; _rhs := tr; _size_of_nulls := p; _column_order := o |})
    in *.
  assert (Hother : forall j, j <> i -> (j < length (_columns tl))%nat ->
            column_state has_nulls flipped li ri j = state j).
  { intros j Hj Hlt. apply column_state_ext; try done.
    by apply flip_to_descending_other. }
  assert (Hsame : forall lc rc,
            _columns tl !! i = Some lc -> _columns tr !! i = Some rc ->
            column_state has_nulls flipped li ri i
            = type_dispatcher has_nulls (type lc) rc ri lc li p).
  { intros lc rc Hl Hr.
    rewrite (column_state_eq has_nulls flipped li ri i lc rc DESCENDING);
      try done.
    apply flip_to_descending_same; [|by exists ASCENDING].
    by eapply lookup_lt_Some. }
  unfold row_lexicographic_comparator_call, num_columns. simpl.
  rewrite Nat2Z.id.
  split; [|split].
  - intros lc rc Hl Hr. split; [|by apply Hsame].
    subst state. by rewrite (column_state_eq has_nulls c li ri i lc rc ASCENDING).
  - intros lc v Hl Hasym Hall Hv Hne.
    assert (Hi : (i < length (_columns tl))%nat) by by eapply lookup_lt_Some.
    split.
    + apply compare_columns_first_decides with (k := i); try done.
      intros j Hj. apply Hall. lia.
    + subst state.
      apply column_state_returns in Hv
        as (lc' & rc & d & Hl' & Hr & Hd & Hcmp & ->).
      simpl in Hl', Hr, Hd. rewrite Hl in Hl'. injection Hl' as <-.
      rewrite Hasc in Hd. injection Hd as <-. simpl in Hne |- *.
      replace (negb (bool_decide
                 (element_relational_comparator has_nulls (type lc)
                    lc li rc ri p = LESS)))
        with (bool_decide
                (element_relational_comparator has_nulls (type lc)
                   rc ri lc li p = LESS)).
      2:{ rewrite element_swap by done. simpl.
          by destruct (element_relational_comparator has_nulls (type lc)
                         lc li rc ri p). }
      apply compare_columns_first_decides with (k := i); try done.
      * intros j Hj. rewrite Hother by lia. apply Hall. lia.
      * simpl. rewrite (Hsame lc rc) by done. unfold type_dispatcher.
        by rewrite Hcmp.
      * rewrite element_swap by done.
        by destruct (element_relational_comparator has_nulls (type lc)
                       lc li rc ri p).
  - intros k v Hk Hall Hv Hne.
    assert (Hkn : (k < length (_columns tl))%nat).
    { apply column_state_returns in Hv as (lc & _ & _ & Hl & _).
      by eapply lookup_lt_Some. }
    rewrite (compare_columns_first_decides has_nulls c li ri _ 0 k v);
      try done.
    2:{ intros j Hj. apply Hall. lia. }
    apply compare_columns_first_decides with (k := k); try done.
    + intros j Hj. rewrite Hother by lia. apply Hall. lia.
    + simpl. by rewrite Hother by lia.
Qed.

(** C9, amended: in the null-aware instantiation ([has_nulls = true]) the
    null policy is inverted on a descending column.  When a descending
    column is the deciding column and exactly one of its two elements is
    null, its state is what an ascending comparison under the opposite
    policy gives: under nulls-lowest the row holding the null is not less
    than the other row (the state is GREATER with the null on the left, LESS
    with the null on the right), so the null sorts after the non-null
    element; under nulls-highest it sorts before. *)
Theorem descending_column_inverts_null_policy
    (tl tr : table_device_view type_id) (p : null_size)
    (o : option (list order)) (c : row_lexicographic_comparator type_id)
    (li ri : size_type) (k : nat) (lc rc : column_device_view type_id) :
  make_row_lexicographic_comparator tl tr p o = Constructed c ->
  direction_at o k = Some DESCENDING ->
  _columns tl !! k = Some lc -> _columns tr !! k = Some rc ->
  is_relationally_comparable (type lc) = true ->
  (forall j, (j < k)%nat -> column_state true c li ri j = Returns EQUIVALENT) ->
  (null_at lc li -> ~ null_at rc ri ->
     column_state true c li ri k
       = Returns (match p with LOWEST => GREATER | HIGHEST => LESS end)
     /\ column_state true c li ri k
        = type_dispatcher true (type lc) lc li rc ri (opposite p)
     /\ row_lexicographic_comparator_call true c li ri
        = Returns (bool_decide (p = HIGHEST)))
  /\ (~ null_at lc li -> null_at rc ri ->
        column_state true c li ri k
          = Returns (match p with LOWEST => LESS | HIGHEST => GREATER end)
        /\ column_state true c li ri k
           = type_dispatcher true (type lc) lc li rc ri (opposite p)
        /\ row_lexicographic_comparator_call true c li ri
           = Returns (bool_decide (p = LOWEST))).
Proof.
  intros [-> Hlen]%constructed_inv Hd Hl Hr Hcmp Hall.
  set (c := {| _lhs := tl; _rhs := tr; _size_of_nulls := p; _column_order := o |})
    in *.
  assert (Hk : (k < length (_columns tl))%nat) by by eapply lookup_lt_Some.
  assert (Hstate : column_state true c li ri k
                   = Returns (element_relational_comparator true (type lc)
                                rc ri lc li p)).
  { rewrite (column_state_eq true c li ri k lc rc DESCENDING) by done.
    unfold type_dispatcher. by rewrite Hcmp. }
  unfold row_lexicographic_comparator_call, num_columns. simpl.
  rewrite Nat2Z.id. unfold type_dispatcher. rewrite Hcmp.
  split.
  - intros Hln%null_at_iff Hrn%not_null_at_iff.
    assert (Hv : element_relational_comparator true (type lc) rc ri lc li p
                 = match p with LOWEST => GREATER | HIGHEST => LESS end).
    { unfold element_relational_comparator. rewrite Hln, Hrn. by destruct p. }
    rewrite Hstate, Hv. split; [done|]. split.
    + unfold element_relational_comparator. rewrite Hln, Hrn. by destruct p.
    + rewrite (compare_columns_first_decides true c li ri _ 0 k
                 (match p with LOWEST => GREATER | HIGHEST => LESS end));
        try done.
      * by destruct p.
      * intros j Hj. apply Hall. lia.
      * simpl. by rewrite Hstate, Hv.
      * by destruct p.
  - intros Hln%not_null_at_iff Hrn%null_at_iff.
    assert (Hv : element_relational_comparator true (type lc) rc ri lc li p
                 = match p with LOWEST => LESS | HIGHEST => GREATER end).
    { unfold element_relational_comparator. rewrite Hln, Hrn. by destruct p. }
    rewrite Hstate, Hv. split; [done|]. split.
    + unfold element_relational_comparator. rewrite Hln, Hrn. by destruct p.
    + rewrite (compare_columns_first_decides true c li ri _ 0 k
                 (match p with LOWEST => LESS | HIGHEST => GREATER end));
        try done.
      * by destruct p.
      * intros j Hj. apply Hall. lia.
      * simpl. by rewrite Hstate, Hv.
      * by destruct p.
Qed.

(** *** Strict weak ordering *)

Lemma strict_weak_order_asymmetric t : strict_weak_order t -> asymmetric t.
Proof.
  intros [Hirr Htrans _] x y Hxy.
  destruct (less t y x) eqn:Hyx; [|done].
  by rewrite <- (Hirr x), <- (Htrans x y x Hxy Hyx).
Qed.

(** A strict weak ordering of the whole type is one on any of its values. *)
Lemma strict_weak_order_on_any t (V : Element t -> Prop) :
  strict_weak_order t -> strict_weak_order_on t V.
Proof.
  intros [Hirr Htrans Hinc]. split.
  - intros x _. apply Hirr.
  - intros x y z _ _ _. apply Htrans.
  - intros x y z _ _ _. apply Hinc.
Qed.

Section OrderedValues.

Variables (t : type_id) (V : Element t -> Prop).
Hypothesis ordered_values : strict_weak_order_on t V.

Lemma strict_weak_order_on_asymmetric x y :
  V x -> V y -> less t x y = true -> less t y x = false.
Proof.
  intros Hx Hy Hxy.
  destruct (less t y x) eqn:Hyx; [|done].
  by rewrite <- (swoo_irrefl t V ordered_values x Hx),
             <- (swoo_trans t V ordered_values x y x Hx Hy Hx Hxy Hyx).
Qed.

(** Over a strict weak ordering, "not less" is transitive. *)
Lemma strict_weak_order_on_not_less_trans x y z :
  V x -> V y -> V z ->
  less t y x = false -> less t z y = false -> less t z x = false.
Proof.
  intros Hx Hy Hz Hyx Hzy.
  destruct (less t z x) eqn:Hzx; [|done].
  assert (Hyz : less t y z = false).
  { destruct (less t y z) eqn:Hyz; [|done].
    by rewrite <- Hyx,
               <- (swoo_trans t V ordered_values y z x Hy Hz Hx Hyz Hzx). }
  assert (Hxy : less t x y = false).
  { destruct (less t x y) eqn:Hxy; [|done].
    by rewrite <- Hzy,
               <- (swoo_trans t V ordered_values z x y Hz Hx Hy Hzx Hxy). }
  destruct (swoo_incomparable t V ordered_values z y x Hz Hy Hx
              Hzy Hyz Hyx Hxy) as [Hc _].
  by rewrite Hc in Hzx.
Qed.

Lemma compare_elements_not_greater x y :
  V x -> V y ->
  compare_elements t x y <> GREATER <-> less t y x = false.
Proof.
  intros Hx Hy. unfold compare_elements.
  destruct (less t x y) eqn:Hxy.
  - by rewrite (strict_weak_order_on_asymmetric x y Hx Hy Hxy).
  - destruct (less t y x); split; done.
Qed.

Lemma compare_elements_not_greater_trans x y z :
  V x -> V y -> V z ->
  compare_elements t x y <> GREATER -> compare_elements t y z <> GREATER ->
  compare_elements t x z <> GREATER.
Proof.
  intros Hx Hy Hz. rewrite !compare_elements_not_greater by done.
  intros Hyx Hzy. by apply (strict_weak_order_on_not_less_trans x y z).
Qed.

End OrderedValues.

(** Swapping the operands of an element comparison gives the converse
    verdict as soon as [operator<] does not hold both ways between the two
    data, when they are read. *)
Lemma element_swap_where has_nulls t lhs (li : size_type) rhs (ri : size_type) p :
  ((has_nulls = true -> ~ null_at lhs li) ->
   (has_nulls = true -> ~ null_at rhs ri) ->
   less t (data lhs t li) (data rhs t ri) = true ->
   less t (data rhs t ri) (data lhs t li) = false) ->
  element_relational_comparator has_nulls t rhs ri lhs li p
  = converse (element_relational_comparator has_nulls t lhs li rhs ri p).
Proof.
  intros Hasym. unfold element_relational_comparator, compare_elements.
  destruct has_nulls.
  - destruct (nullable lhs && is_null lhs li) eqn:Hl,
      (nullable rhs && is_null rhs ri) eqn:Hr, p; simpl; try done.
    all: apply not_null_at_iff in Hl, Hr.
    all: specialize (Hasym (fun _ => Hl) (fun _ => Hr)).
    all: destruct (less t (data lhs t li) (data rhs t ri));
      try (rewrite Hasym by done); simpl; try done;
      by destruct (less t (data rhs t ri) (data lhs t li)).
  - specialize (Hasym ltac:(done) ltac:(done)).
    destruct (less t (data lhs t li) (data rhs t ri));
      try (rewrite Hasym by done); simpl; try done;
      by destruct (less t (data rhs t ri) (data lhs t li)).
Qed.

(** The element comparison of one column against itself is a total preorder
    of the rows on whose data [operator<] is a strict weak ordering, in
    either direction. *)
Lemma element_total_preorder_on has_nulls rows col p d :
  strict_weak_order_on (type col) (read_values has_nulls rows col) ->
  total_preorder_on rows (fun a b =>
    match d with
    | ASCENDING =>
        element_relational_comparator has_nulls (type col) col a col b p
    | DESCENDING =>
        element_relational_comparator has_nulls (type col) col b col a p
    end).
Proof.
  intros Hswo.
  assert (Hread : forall r, rows r -> (has_nulls = true -> ~ null_at col r) ->
            read_values has_nulls rows col (data col (type col) r))
    by (intros r Hr Hn; by exists r).
  assert (Hconv : forall a b, rows a -> rows b ->
    element_relational_comparator has_nulls (type col) col b col a p
    = converse (element_relational_comparator has_nulls (type col) col a col b p)).
  { intros a b Ha Hb. apply element_swap_where. intros Hna Hnb.
    apply (strict_weak_order_on_asymmetric _ _ Hswo); by apply Hread. }
  assert (Htrans : forall a b c, rows a -> rows b -> rows c ->
    element_relational_comparator has_nulls (type col) col a col b p <> GREATER ->
    element_relational_comparator has_nulls (type col) col b col c p <> GREATER ->
    element_relational_comparator has_nulls (type col) col a col c p <> GREATER).
  { intros a b c Ha Hb Hc. unfold element_relational_comparator.
    destruct has_nulls.
    - destruct (nullable col && is_null col a) eqn:Hna,
        (nullable col && is_null col b) eqn:Hnb,
        (nullable col && is_null col c) eqn:Hnc, p; simpl; try done.
      all: apply not_null_at_iff in Hna, Hnb, Hnc.
      all: apply (compare_elements_not_greater_trans _ _ Hswo);
        by apply Hread.
    - apply (compare_elements_not_greater_trans _ _ Hswo); by apply Hread. }
  split.
  - intros a b Ha Hb. destruct d; [by apply Hconv|].
    rewrite (Hconv b a) by done.
    by destruct (element_relational_comparator has_nulls (type col)
                   col b col a p).
  - intros a b c Ha Hb Hc. destruct d; [by apply Htrans|].
    intros Hab Hbc. by apply (Htrans c b a).
Qed.

(** How the verdicts of a total preorder compose. *)
Lemma total_preorder_on_compose rows g a b c :
  total_preorder_on rows g -> rows a -> rows b -> rows c ->
  match g a b, g b c with
  | LESS, LESS | LESS, EQUIVALENT | EQUIVALENT, LESS => g a c = LESS
  | EQUIVALENT, EQUIVALENT => g a c = EQUIVALENT
  | GREATER, GREATER | GREATER, EQUIVALENT | EQUIVALENT, GREATER =>
      g a c = GREATER
  | _, _ => True
  end.
Proof.
  intros [Hconv Htrans] Ha Hb Hc.
  pose proof (Hconv a b Ha Hb) as Hba. pose proof (Hconv b c Hb Hc) as Hcb.
  pose proof (Hconv a c Ha Hc) as Hca.
  pose proof (Htrans a b c Ha Hb Hc) as T1.
  pose proof (Htrans c b a Hc Hb Ha) as T2.
  pose proof (Htrans b c a Hb Hc Ha) as T3.
  pose proof (Htrans c a b Hc Ha Hb) as T4.
  pose proof (Htrans a c b Ha Hc Hb) as T5.
  pose proof (Htrans b a c Hb Ha Hc) as T6.
  destruct (g a b), (g b c), (g a c); simpl in *;
    rewrite ?Hba, ?Hcb, ?Hca in *; try done; exfalso;
    first [ by apply T1 | by apply T2 | by apply T3
          | by apply T4 | by apply T5 | by apply T6 ].
Qed.

(** Every column of a table compared against itself is ordered on the rows
    on whose data [operator<] of the column's type is a strict weak
    ordering. *)
Lemma same_table_stage_ordered_on rows has_nulls
    (tbl : table_device_view type_id) p o j :
  (forall col, col ∈ _columns tbl ->
     is_relationally_comparable (type col) = true ->
     strict_weak_order_on (type col) (read_values has_nulls rows col)) ->
  stage_ordered_on rows has_nulls
    {| _lhs := tbl; _rhs := tbl; _size_of_nulls := p; _column_order := o |} j.
Proof.
  intros Hswo.
  set (c := {| _lhs := tbl; _rhs := tbl; _size_of_nulls := p; _column_order := o |}).
  destruct (_columns tbl !! j) as [col|] eqn:Hcol.
  2:{ left. intros a b v Hs.
      apply column_state_returns in Hs as (lc & _ & _ & Hl & _).
      simpl in Hl. by rewrite Hcol in Hl. }
  destruct (direction_at o j) as [d|] eqn:Hd.
  2:{ left. intros a b v Hs.
      apply column_state_returns in Hs as (_ & _ & d & _ & _ & Hd' & _).
      simpl in Hd'. by rewrite Hd in Hd'. }
  destruct (is_relationally_comparable (type col)) eqn:Hcmp.
  2:{ left. intros a b v Hs.
      apply column_state_returns in Hs as (lc & _ & _ & Hl & _ & _ & Hc & _).
      simpl in Hl. rewrite Hcol in Hl. injection Hl as <-.
      by rewrite Hcmp in Hc. }
  right. eexists. split.
  - apply (element_total_preorder_on has_nulls rows col p d).
    apply Hswo; [by eapply list_elem_of_lookup_2|done].
  - intros a b. rewrite (column_state_eq has_nulls c a b j col col d) by done.
    unfold type_dispatcher. rewrite Hcmp. by destruct d.
Qed.

Section Ordered.

Variables (rows : size_type -> Prop) (has_nulls : bool)
          (c : row_lexicographic_comparator type_id).
Hypothesis ordered : forall j, stage_ordered_on rows has_nulls c j.

Local Abbreviation loop := (compare_columns has_nulls c).

Lemma compare_columns_transitive remaining i r s t :
  rows r -> rows s -> rows t ->
  loop r s remaining i = Returns true ->
  loop s t remaining i = Returns true ->
  loop r t remaining i = Returns true.
Proof.
  intros Hr Hs Ht. revert i.
  induction remaining as [|remaining IH]; intros i; [done|].
  destruct (ordered i) as [Hstuck | (g & Hg & Hret)].
  - intros Hrs. by apply compare_columns_stuck in Hrs.
  - pose proof (total_preorder_on_compose rows g r s t Hg Hr Hs Ht) as Hc.
    simpl. rewrite !Hret. simpl.
    destruct (g r s), (g s t); simpl; try done; rewrite Hc; simpl; try done.
    apply IH.
Qed.

Lemma compare_columns_incomparable_trans remaining i r s t :
  rows r -> rows s -> rows t ->
  loop r s remaining i <> Returns true ->
  loop s r remaining i <> Returns true ->
  loop s t remaining i <> Returns true ->
  loop t s remaining i <> Returns true ->
  loop r t remaining i <> Returns true /\ loop t r remaining i <> Returns true.
Proof.
  intros Hr Hs Ht. revert i.
  induction remaining as [|remaining IH]; intros i; [done|].
  destruct (ordered i) as [Hstuck | (g & Hg & Hret)].
  - intros _ _ _ _. split; by apply compare_columns_stuck.
  - pose proof (total_preorder_on_compose rows g r s t Hg Hr Hs Ht) as Hc.
    pose proof (tp_converse rows g Hg r s Hr Hs) as Hsr.
    pose proof (tp_converse rows g Hg s t Hs Ht) as Hts.
    pose proof (tp_converse rows g Hg r t Hr Ht) as Htr.
    simpl. rewrite !Hret. simpl. rewrite Hsr, Hts, Htr.
    destruct (g r s), (g s t); simpl; try done; rewrite Hc; simpl.
    apply IH.
Qed.

Lemma compare_columns_irreflexive remaining i r :
  rows r -> loop r r remaining i <> Returns true.
Proof.
  intros Hr. apply compare_columns_never_less. intros j v Hs.
  destruct (ordered j) as [Hstuck | (g & Hg & Hret)].
  - by destruct (Hstuck r r v).
  - rewrite Hret in Hs. injection Hs as <-.
    pose proof (tp_converse rows g Hg r r Hr Hr) as Hrr. by destruct (g r r).
Qed.

End Ordered.

(** In a transitive relation with transitive incomparability, incomparable
    elements stand in the same relations to every third element. *)
Lemma incomparable_interchangeable (P : size_type -> Prop)
    (L : size_type -> size_type -> Prop) :
  (forall r s, L r s \/ ~ L r s) ->
  (forall r s t, P r -> P s -> P t -> L r s -> L s t -> L r t) ->
  (forall r s t, P r -> P s -> P t ->
                 ~ L r s -> ~ L s r -> ~ L s t -> ~ L t s ->
                 ~ L r t /\ ~ L t r) ->
  forall r s x, P r -> P s -> P x ->
    ~ L r s -> ~ L s r -> (L r x -> L s x) /\ (L x r -> L x s).
Proof.
  intros Hdec Htrans Hinc r s x Hr Hs Hx Hrs Hsr. split.
  - intros Hrx. destruct (Hdec s x) as [|Hsx]; [done|].
    destruct (Hdec x s) as [Hxs|Hxs].
    + destruct Hrs. by apply (Htrans r x s).
    + by destruct (Hinc r s x Hr Hs Hx Hrs Hsr Hsx Hxs) as [Hn _].
  - intros Hxr. destruct (Hdec x s) as [|Hxs]; [done|].
    destruct (Hdec s x) as [Hsx|Hsx].
    + destruct Hsr. by apply (Htrans s x r).
    + by destruct (Hinc x s r Hx Hs Hr Hxs Hsx Hsr Hrs) as [Hn _].
Qed.

(** A constructed comparator whose columns all have a relationally
    comparable type and a direction flag returns a verdict for every pair of
    rows. *)
Lemma row_comparator_total has_nulls (tl tr : table_device_view type_id) p o c
    (li ri : size_type) :
  make_row_lexicographic_comparator tl tr p o = Constructed c ->
  order_covers o tl ->
  (forall col, col ∈ _columns tl ->
     is_relationally_comparable (type col) = true) ->
  exists v, row_lexicographic_comparator_call has_nulls c li ri = Returns v.
Proof.
  intros [-> Hlen]%constructed_inv Hcov Hcmp.
  unfold row_lexicographic_comparator_call, num_columns. simpl.
  rewrite Nat2Z.id.
  assert (Hgen : forall remaining i,
            (i + remaining = length (_columns tl))%nat ->
            exists v, compare_columns has_nulls
              {| _lhs := tl; _rhs := tr; _size_of_nulls := p;
                 _column_order := o |} li ri remaining i = Returns v).
  { induction remaining as [|remaining IH]; intros i Hi; [by eexists|].
    destruct (lookup_lt_is_Some_2 (_columns tl) i) as [lc Hl]; [lia|].
    destruct (lookup_lt_is_Some_2 (_columns tr) i) as [rc Hr]; [lia|].
    destruct (direction_at_covered o tl i Hcov) as [d Hd]; [lia|].
    simpl. rewrite (column_state_eq has_nulls _ li ri i lc rc d) by done.
    unfold type_dispatcher.
    rewrite (Hcmp lc) by by eapply list_elem_of_lookup_2.
    destruct d; simpl.
    - destruct (element_relational_comparator has_nulls (type lc) lc li rc ri p);
        try by eexists. apply IH. lia.
    - destruct (element_relational_comparator has_nulls (type lc) rc ri lc li p);
        try by eexists. apply IH. lia. }
  apply Hgen. lia.
Qed.


(** C6, amended: for a table compared against itself under any fixed
    configuration, and for any set of rows (such as the rows of the table)
    such that in every relationally comparable column [operator<] is a
    strict weak ordering on the data the comparator reads at these rows (the
    data of all of them, those under a null excepted when [has_nulls] is
    true): on these rows "the call returns true" is transitive, and its
    incomparability (the call returns true in neither direction) is an
    equivalence whose classes are interchangeable: two incomparable rows
    compare alike with every third row.  When every column has a comparable
    type and a direction flag, every call returns a verdict. *)
Theorem row_comparator_strict_weak_ordering (has_nulls : bool)
    (tbl : table_device_view type_id) (p : null_size)
    (o : option (list order)) (c : row_lexicographic_comparator type_id)
    (rows : size_type -> Prop) :
  make_row_lexicographic_comparator tbl tbl p o = Constructed c ->
  (forall col, col ∈ _columns tbl ->
     is_relationally_comparable (type col) = true ->
     strict_weak_order_on (type col) (read_values has_nulls rows col)) ->
  let is_less r s :=
    row_lexicographic_comparator_call has_nulls c r s = Returns true in
  let incomparable r s := ~ is_less r s /\ ~ is_less s r in
  (forall r s t, rows r -> rows s -> rows t ->
     is_less r s -> is_less s t -> is_less r t)
  /\ (forall r, rows r -> incomparable r r)
  /\ (forall r s, incomparable r s -> incomparable s r)
  /\ (forall r s t, rows r -> rows s -> rows t ->
        incomparable r s -> incomparable s t -> incomparable r t)
  /\ (forall r s x, rows r -> rows s -> rows x -> incomparable r s ->
        (is_less r x <-> is_less s x) /\ (is_less x r <-> is_less x s))
  /\ (order_covers o tbl ->
      (forall col, col ∈ _columns tbl ->
         is_relationally_comparable (type col) = true) ->
      forall r s, exists v,
        row_lexicographic_comparator_call has_nulls c r s = Returns v).
Proof.
  intros Hmake Hswo is_less incomparable.
  pose proof Hmake as [-> _]%constructed_inv.
  pose proof (fun j => same_table_stage_ordered_on rows has_nulls tbl p o j Hswo)
    as Hord.
  assert (Htrans : forall r s t, rows r -> rows s -> rows t ->
            is_less r s -> is_less s t -> is_less r t).
  { intros r s t Hr Hs Ht.
    by apply (compare_columns_transitive rows has_nulls _ Hord). }
  assert (Hinc : forall r s t, rows r -> rows s -> rows t ->
            ~ is_less r s -> ~ is_less s r -> ~ is_less s t -> ~ is_less t s ->
            ~ is_less r t /\ ~ is_less t r).
  { intros r s t Hr Hs Ht.
    by apply (compare_columns_incomparable_trans rows has_nulls _ Hord). }
  assert (Hdec : forall r s, is_less r s \/ ~ is_less r s).
  { intros r s. unfold is_less.
    destruct (row_lexicographic_comparator_call has_nulls _ r s)
      as [[|]| | |]; auto. }
  split; [done|]. split.
  { intros r Hr.
    split; by apply (compare_columns_irreflexive rows has_nulls _ Hord). }
  split.
  { intros r s [Hrs Hsr]. by split. }
  split.
  { intros r s t Hr Hs Ht [Hrs Hsr] [Hst Hts]. by apply (Hinc r s t). }
  split.
  { intros r s x Hr Hs Hx [Hrs Hsr].
    destruct (incomparable_interchangeable rows is_less Hdec Htrans Hinc
                r s x Hr Hs Hx Hrs Hsr) as [H1 H2].
    destruct (incomparable_interchangeable rows is_less Hdec Htrans Hinc
                s r x Hs Hr Hx Hsr Hrs) as [H3 H4].
    by repeat split. }
  intros Hcov Hcmp r s. by eapply row_comparator_total.
Qed.

(** ** The walk over the columns, in full *)

Section Walk.

Variables (has_nulls : bool) (c : row_lexicographic_comparator type_id)
          (li ri : size_type).

Local Abbreviation state := (column_state has_nulls c li ri).
Local Abbreviation loop := (compare_columns has_nulls c li ri).

(** The first column state other than a returned EQUIVALENT ends the loop. *)
Lemma compare_columns_first_other remaining i k s :
  (k < remaining)%nat ->
  (forall j, (i <= j < i + k)%nat -> state j = Returns EQUIVALENT) ->
  state (i + k)%nat = s -> s <> Returns EQUIVALENT ->
  loop remaining i = verdict_of s.
Proof.
  revert i remaining.
  induction k as [|k IH]; intros i remaining Hk Hall Hs Hne.
  - destruct remaining as [|remaining]; [lia|].
    rewrite Nat.add_0_r in Hs. simpl. rewrite Hs.
    destruct s as [v| | |]; simpl; try done. by destruct v.
  - destruct remaining as [|remaining]; [lia|].
    rewrite compare_columns_skip by (apply Hall; lia).
    apply IH; [lia| |by replace (S i + k)%nat with (i + S k)%nat by lia|done].
    intros j Hj. apply Hall. lia.
Qed.

(** Either every column is EQUIVALENT, or there is a first one that is not. *)
Lemma compare_columns_cases remaining i :
  (forall j, (i <= j < i + remaining)%nat -> state j = Returns EQUIVALENT)
  \/ (exists k, (k < remaining)%nat
        /\ (forall j, (i <= j < i + k)%nat -> state j = Returns EQUIVALENT)
        /\ state (i + k)%nat <> Returns EQUIVALENT).
Proof.
  revert i. induction remaining as [|remaining IH]; intros i.
  - left. intros j Hj. lia.
  - assert (Hdec : state i = Returns EQUIVALENT \/ state i <> Returns EQUIVALENT)
      by (destruct (state i) as [[]| | |]; auto).
    destruct Hdec as [Hi|Hi].
    + destruct (IH (S i)) as [Hall | (k & Hk & Hall & Hne)].
      * left. intros j Hj. destruct (decide (j = i)) as [->|]; [done|].
        apply Hall. lia.
      * right. exists (S k). split; [lia|]. split.
        -- intros j Hj. destruct (decide (j = i)) as [->|]; [done|].
           apply Hall. lia.
        -- by replace (i + S k)%nat with (S i + k)%nat by lia.
    + right. exists 0%nat. split; [lia|]. split; [intros j Hj; lia|].
      by rewrite Nat.add_0_r.
Qed.

End Walk.

(** The loop depends on the comparator and the rows through the column
    states only. *)
Lemma compare_columns_shift has_nulls has_nulls'
    (c c' : row_lexicographic_comparator type_id) li ri li' ri' remaining i i' :
  (forall j, (j < remaining)%nat ->
     column_state has_nulls c li ri (i + j)
     = column_state has_nulls' c' li' ri' (i' + j)) ->
  compare_columns has_nulls c li ri remaining i
  = compare_columns has_nulls' c' li' ri' remaining i'.
Proof.
  revert i i'. induction remaining as [|remaining IH]; intros i i' Hs; [done|].
  simpl. pose proof (Hs 0%nat ltac:(lia)) as H0.
  rewrite !Nat.add_0_r in H0. rewrite H0.
  destruct (column_state has_nulls' c' li' ri' i') as [[]| | |]; simpl; try done.
  apply IH. intros j Hj.
  replace (S i + j)%nat with (i + S j)%nat by lia.
  replace (S i' + j)%nat with (i' + S j)%nat by lia.
  apply Hs. lia.
Qed.

(** A returned verdict comes from a walk that found every column
    EQUIVALENT, or from the first column whose state is LESS or GREATER. *)
Lemma call_returns_inv has_nulls (c : row_lexicographic_comparator type_id)
    li ri b :
  row_lexicographic_comparator_call has_nulls c li ri = Returns b ->
  ((forall j, (j < length (_columns (_lhs c)))%nat ->
      column_state has_nulls c li ri j = Returns EQUIVALENT) /\ b = false)
  \/ (exists k v, (k < length (_columns (_lhs c)))%nat
        /\ (forall j, (j < k)%nat ->
              column_state has_nulls c li ri j = Returns EQUIVALENT)
        /\ column_state has_nulls c li ri k = Returns v
        /\ v <> EQUIVALENT /\ b = bool_decide (v = LESS)).
Proof.
  unfold row_lexicographic_comparator_call, num_columns. rewrite Nat2Z.id.
  destruct (compare_columns_cases has_nulls c li ri
              (length (_columns (_lhs c))) 0)
    as [Hall | (k & Hk & Hall & Hne)].
  - rewrite compare_columns_all_equivalent by done. intros [= <-].
    left. split; [|done]. intros j Hj. apply Hall. lia.
  - simpl in Hne.
    rewrite (compare_columns_first_other has_nulls c li ri _ 0 k _ Hk Hall
               eq_refl Hne). simpl.
    destruct (column_state has_nulls c li ri k) as [v| | |] eqn:Hs; try done.
    simpl. intros [= <-]. right. exists k, v. split; [done|].
    split; [intros j Hj; apply Hall; lia|]. split; [done|].
    split; [|done]. by intros ->.
Qed.

(** X1: the call returns true exactly when some column's state is LESS and
    the state of every earlier column is EQUIVALENT; it returns false
    exactly when every column's state is EQUIVALENT or the first other state
    is GREATER. *)
Theorem call_verdict_characterised (has_nulls : bool)
    (c : row_lexicographic_comparator type_id) (li ri : size_type) :
  let state := column_state has_nulls c li ri in
  let n := length (_columns (_lhs c)) in
  (row_lexicographic_comparator_call has_nulls c li ri = Returns true
   <-> exists k, (k < n)%nat
         /\ (forall j, (j < k)%nat -> state j = Returns EQUIVALENT)
         /\ state k = Returns LESS)
  /\ (row_lexicographic_comparator_call has_nulls c li ri = Returns false
      <-> (forall j, (j < n)%nat -> state j = Returns EQUIVALENT)
          \/ exists k, (k < n)%nat
                /\ (forall j, (j < k)%nat -> state j = Returns EQUIVALENT)
                /\ state k = Returns GREATER).
Proof.
  intros state n. subst state n.
  assert (Hdecided : forall k v,
            (k < length (_columns (_lhs c)))%nat ->
            (forall j, (j < k)%nat ->
               column_state has_nulls c li ri j = Returns EQUIVALENT) ->
            column_state has_nulls c li ri k = Returns v -> v <> EQUIVALENT ->
            row_lexicographic_comparator_call has_nulls c li ri
            = Returns (bool_decide (v = LESS))).
  { intros k v Hk Hall Hv Hne.
    unfold row_lexicographic_comparator_call, num_columns. rewrite Nat2Z.id.
    apply compare_columns_first_decides with (k := k); try done.
    intros j Hj. apply Hall. lia. }
  split; split.
  - intros [[_ [=]] | (k & v & Hk & Hall & Hv & Hne & Hb)]%call_returns_inv.
    exists k. repeat (split; [done|]). by destruct v.
  - intros (k & Hk & Hall & Hv). by rewrite (Hdecided k LESS).
  - intros [[Hall _] | (k & v & Hk & Hall & Hv & Hne & Hb)]%call_returns_inv;
      [by left|].
    right. exists k. repeat (split; [done|]). by destruct v.
  - intros [Hall | (k & Hk & Hall & Hv)].
    + unfold row_lexicographic_comparator_call, num_columns. rewrite Nat2Z.id.
      apply compare_columns_all_equivalent. intros j Hj. apply Hall. lia.
    + by rewrite (Hdecided k GREATER).
Qed.





(** ** Configurations that make no difference *)

(** X3: an order array whose flags for the table's columns are all
    ASCENDING gives the call the results it has without an order array. *)
Theorem all_ascending_is_default (has_nulls : bool)
    (c : row_lexicographic_comparator type_id) (o : list order)
    (li ri : size_type) :
  (forall j, (j < length (_columns (_lhs c)))%nat -> o !! j = Some ASCENDING) ->
  row_lexicographic_comparator_call has_nulls (with_column_order c (Some o)) li ri
  = row_lexicographic_comparator_call has_nulls (with_column_order c None) li ri.
Proof.
  intros Hasc. unfold row_lexicographic_comparator_call, num_columns. simpl.
  rewrite Nat2Z.id. apply compare_columns_shift. intros j Hj.
  apply column_state_ext; try done. simpl. by apply Hasc.
Qed.

(** X4: when no element of the two rows is null, the instantiations with
    [has_nulls = true] and [has_nulls = false] give the same result. *)
Theorem has_nulls_flag_irrelevant_without_nulls
    (c : row_lexicographic_comparator type_id) (li ri : size_type) :
  (forall col, col ∈ _columns (_lhs c) -> ~ null_at col li) ->
  (forall col, col ∈ _columns (_rhs c) -> ~ null_at col ri) ->
  row_lexicographic_comparator_call true c li ri
  = row_lexicographic_comparator_call false c li ri.
Proof.
  intros Hnl Hnr. unfold row_lexicographic_comparator_call.
  apply compare_columns_shift. intros j _. simpl.
  unfold column_state, column, at_index.
  destruct (ascending_at c j) as [asc| | |]; simpl; try done.
  destruct (_columns (_lhs c) !! j) as [lc|] eqn:Hl; simpl; [|done].
  destruct (_columns (_rhs c) !! j) as [rc|] eqn:Hr; simpl; [|done].
  apply list_elem_of_lookup_2, Hnl in Hl.
  apply list_elem_of_lookup_2, Hnr in Hr.
  unfold type_dispatcher.
  destruct asc, (is_relationally_comparable (type lc)); try done;
    by rewrite !element_without_nulls.
Qed.

Lemma element_policy_irrelevant has_nulls t lhs (li : size_type)
    rhs (ri : size_type) p p' :
  (null_at lhs li <-> null_at rhs ri) ->
  element_relational_comparator has_nulls t lhs li rhs ri p
  = element_relational_comparator has_nulls t lhs li rhs ri p'.
Proof.
  rewrite !null_at_iff. intros Hiff. unfold element_relational_comparator.
  destruct has_nulls; [|done].
  destruct (nullable lhs && is_null lhs li), (nullable rhs && is_null rhs ri);
    try done.
  - by destruct Hiff as [Hiff _]; specialize (Hiff eq_refl).
  - by destruct Hiff as [_ Hiff]; specialize (Hiff eq_refl).
Qed.

(** X5: when in every column the two elements compared are both null or
    both not null, the call gives the same result under either null
    policy. *)
Theorem null_policy_irrelevant_when_nulls_align (has_nulls : bool)
    (c : row_lexicographic_comparator type_id) (other_policy : null_size)
    (li ri : size_type) :
  (forall j lc rc,
     _columns (_lhs c) !! j = Some lc -> _columns (_rhs c) !! j = Some rc ->
     (null_at lc li <-> null_at rc ri)) ->
  row_lexicographic_comparator_call has_nulls
    (with_size_of_nulls c other_policy) li ri
  = row_lexicographic_comparator_call has_nulls c li ri.
Proof.
  intros Halign. unfold row_lexicographic_comparator_call, num_columns. simpl.
  apply compare_columns_shift. intros j _. simpl.
  unfold column_state, column, at_index. rewrite !ascending_at_direction. simpl.
  destruct (direction_at (_column_order c) j) as [d|]; simpl; [|done].
  destruct (_columns (_lhs c) !! j) as [lc|] eqn:Hl; simpl; [|done].
  destruct (_columns (_rhs c) !! j) as [rc|] eqn:Hr; simpl; [|done].
  pose proof (Halign j lc rc Hl Hr) as Hiff.
  unfold type_dispatcher.
  destruct (bool_decide (d = ASCENDING)),
    (is_relationally_comparable (type lc)); try done; f_equal;
    apply element_policy_irrelevant; tauto.
Qed.

(** A table compared against itself has the same column types on both
    sides. *)
Lemma same_table_same_schema (tbl : table_device_view type_id) p o :
  same_schema {| _lhs := tbl; _rhs := tbl; _size_of_nulls := p;
                 _column_order := o |}.
Proof. intros j lc rc Hl Hr. simpl in *. congruence. Qed.

(** ** The comparison taken the other way round *)

(** X12: with an asymmetric [operator<], the element comparator is
    antisymmetric, nulls and null policy included: the verdict with the two
    operands exchanged is the converse verdict, LESS for GREATER and
    EQUIVALENT for EQUIVALENT. *)
Theorem element_comparison_antisymmetric (has_nulls : bool) (t : type_id)
    lhs (li : size_type) rhs (ri : size_type) (p : null_size) :
  asymmetric t ->
  let forth := element_relational_comparator has_nulls t lhs li rhs ri p in
  let back := element_relational_comparator has_nulls t rhs ri lhs li p in
  back = converse forth
  /\ (forth = LESS <-> back = GREATER)
  /\ (forth = GREATER <-> back = LESS)
  /\ (forth = EQUIVALENT <-> back = EQUIVALENT).
Proof.
  intros Hasym forth back. subst forth back.
  rewrite (element_swap has_nulls t lhs li rhs ri p Hasym).
  by destruct (element_relational_comparator has_nulls t lhs li rhs ri p).
Qed.

Lemma column_state_undirected has_nulls (c : row_lexicographic_comparator type_id)
    li ri j :
  direction_at (_column_order c) j = None ->
  column_state has_nulls c li ri j = Undefined.
Proof.
  intros Hd. unfold column_state. by rewrite ascending_at_direction, Hd.
Qed.

(** X7: for two tables with the same column types, reversing the direction
    of every column is the same as exchanging the two rows (and tables): the
    call of the reversed comparator on (b, a) gives what the call on (a, b)
    gives. *)
Theorem reversed_directions_exchange_operands (has_nulls : bool)
    (tl tr : table_device_view type_id) (p : null_size)
    (o : option (list order)) (c : row_lexicographic_comparator type_id)
    (li ri : size_type) :
  make_row_lexicographic_comparator tl tr p o = Constructed c ->
  same_schema c ->
  row_lexicographic_comparator_call has_nulls (reversed c) ri li
  = row_lexicographic_comparator_call has_nulls c li ri.
Proof.
  intros [-> Hlen]%constructed_inv Hschema.
  set (c := {| _lhs := tl; _rhs := tr; _size_of_nulls := p; _column_order := o |})
    in *.
  unfold row_lexicographic_comparator_call, num_columns. simpl.
  rewrite !Nat2Z.id, <- Hlen.
  apply compare_columns_shift. intros j Hj. simpl.
  destruct (lookup_lt_is_Some_2 (_columns tl) j) as [lc Hl]; [lia|].
  destruct (lookup_lt_is_Some_2 (_columns tr) j) as [rc Hr]; [lia|].
  assert (Hd : direction_at (_column_order (reversed c)) j
               = opposite_direction <$> direction_at o j).
  { simpl. rewrite list_lookup_fmap. f_equal. by apply directions_lookup. }
  destruct (direction_at o j) as [d|] eqn:Hdj.
  - rewrite (column_state_eq has_nulls (reversed c) ri li j rc lc
               (opposite_direction d)) by done.
    rewrite (column_state_eq has_nulls c li ri j lc rc d) by done.
    rewrite <- (Hschema j lc rc Hl Hr). by destruct d.
  - by rewrite !column_state_undirected.
Qed.

(** Over tables with the same column types and an asymmetric [operator<],
    the state of a column for the swapped comparator and exchanged rows is
    the converse state. *)
Lemma column_state_swapped has_nulls (c : row_lexicographic_comparator type_id)
    li ri j v :
  same_schema c ->
  (forall col, col ∈ _columns (_lhs c) -> asymmetric (type col)) ->
  column_state has_nulls c li ri j = Returns v ->
  column_state has_nulls (swapped c) ri li j = Returns (converse v).
Proof.
  intros Hschema Hasym Hs.
  apply column_state_returns in Hs as (lc & rc & d & Hl & Hr & Hd & Hcmp & ->).
  rewrite (column_state_eq has_nulls (swapped c) ri li j rc lc d) by done.
  pose proof (Hasym lc ltac:(by eapply list_elem_of_lookup_2)) as Ha.
  rewrite <- (Hschema j lc rc Hl Hr). unfold type_dispatcher. rewrite Hcmp.
  simpl. destruct d; f_equal; by apply element_swap.
Qed.

(** X8: for two tables with the same column types and an asymmetric
    [operator<], the call is asymmetric: when row a of the left table is
    less than row b of the right table, row b is not less than row a in the
    comparator over the swapped tables (the same comparator when the table
    is compared against itself). *)
Theorem call_asymmetric (has_nulls : bool)
    (tl tr : table_device_view type_id) (p : null_size)
    (o : option (list order)) (c : row_lexicographic_comparator type_id)
    (li ri : size_type) :
  make_row_lexicographic_comparator tl tr p o = Constructed c ->
  same_schema c ->
  (forall col, col ∈ _columns tl -> asymmetric (type col)) ->
  row_lexicographic_comparator_call has_nulls c li ri = Returns true ->
  row_lexicographic_comparator_call has_nulls (swapped c) ri li = Returns false.
Proof.
  intros [-> Hlen]%constructed_inv Hschema Hasym
    [[_ [=]] | (k & v & Hk & Hall & Hv & Hne & Hb)]%call_returns_inv.
  set (c := {| _lhs := tl; _rhs := tr; _size_of_nulls := p; _column_order := o |})
    in *.
  assert (v = LESS) as -> by (destruct v; done).
  unfold row_lexicographic_comparator_call, num_columns. simpl.
  rewrite Nat2Z.id.
  rewrite (compare_columns_first_decides has_nulls (swapped c) ri li _ 0 k
             GREATER); [done| | | |done].
  - simpl in Hk. lia.
  - intros j Hj.
    by rewrite (column_state_swapped has_nulls c li ri j EQUIVALENT)
      by (try done; apply Hall; lia).
  - simpl. by rewrite (column_state_swapped has_nulls c li ri k LESS).
Qed.

(** X9: under the same conditions, neither row is less than the other
    (both calls return false) exactly when the state of every column is
    EQUIVALENT. *)
Theorem incomparable_iff_all_equivalent (has_nulls : bool)
    (tl tr : table_device_view type_id) (p : null_size)
    (o : option (list order)) (c : row_lexicographic_comparator type_id)
    (li ri : size_type) :
  make_row_lexicographic_comparator tl tr p o = Constructed c ->
  same_schema c ->
  (forall col, col ∈ _columns tl -> asymmetric (type col)) ->
  (row_lexicographic_comparator_call has_nulls c li ri = Returns false
   /\ row_lexicographic_comparator_call has_nulls (swapped c) ri li
      = Returns false)
  <-> forall j, (j < length (_columns tl))%nat ->
        column_state has_nulls c li ri j = Returns EQUIVALENT.
Proof.
  intros [-> Hlen]%constructed_inv Hschema Hasym.
  set (c := {| _lhs := tl; _rhs := tr; _size_of_nulls := p; _column_order := o |})
    in *.
  split.
  - intros [[[Hall _] | (k & v & Hk & Hall & Hv & Hne & Hb)]%call_returns_inv
             Hback]; [done|].
    assert (v = GREATER) as -> by (destruct v; done).
    revert Hback.
    unfold row_lexicographic_comparator_call, num_columns. simpl.
    rewrite Nat2Z.id.
    rewrite (compare_columns_first_decides has_nulls (swapped c) ri li _ 0 k
               LESS); [done| | | |done].
    + simpl in Hk. lia.
    + intros j Hj.
      by rewrite (column_state_swapped has_nulls c li ri j EQUIVALENT)
        by (try done; apply Hall; lia).
    + simpl. by rewrite (column_state_swapped has_nulls c li ri k GREATER).
  - intros Hall.
    unfold row_lexicographic_comparator_call, num_columns. simpl.
    rewrite !Nat2Z.id. split.
    + apply compare_columns_all_equivalent. intros j Hj. apply Hall. lia.
    + apply compare_columns_all_equivalent. intros j Hj.
      rewrite (column_state_swapped has_nulls c li ri j EQUIVALENT); try done.
      apply Hall. lia.
Qed.

(** ** Rows that hold the same elements *)

Lemma element_equal_values has_nulls t lhs (li : size_type)
    rhs (ri : size_type) p :
  (null_at lhs li <-> null_at rhs ri) ->
  data rhs t ri = data lhs t li ->
  less t (data lhs t li) (data lhs t li) = false ->
  element_relational_comparator has_nulls t lhs li rhs ri p = EQUIVALENT
  /\ element_relational_comparator has_nulls t rhs ri lhs li p = EQUIVALENT.
Proof.
  rewrite !null_at_iff. intros Hiff Hdata Hirr.
  unfold element_relational_comparator, compare_elements.
  rewrite Hdata, Hirr.
  destruct has_nulls; [|done].
  destruct (nullable lhs && is_null lhs li), (nullable rhs && is_null rhs ri);
    try done.
  - by destruct Hiff as [Hiff _]; specialize (Hiff eq_refl).
  - by destruct Hiff as [_ Hiff]; specialize (Hiff eq_refl).
Qed.

(** X13: when, in every column, the two rows are both null or both not
    null and hold the same datum (read at the left column's type, on which
    [operator<] is irreflexive), the call never returns true; it returns
    false when moreover every column has a comparable type and a direction
    flag.  The two rows may sit in distinct tables. *)
Theorem equal_rows_are_not_less (has_nulls : bool)
    (tl tr : table_device_view type_id) (p : null_size)
    (o : option (list order)) (c : row_lexicographic_comparator type_id)
    (li ri : size_type) :
  make_row_lexicographic_comparator tl tr p o = Constructed c ->
  (forall j lc rc,
     _columns tl !! j = Some lc -> _columns tr !! j = Some rc ->
     (null_at lc li <-> null_at rc ri)
     /\ data rc (type lc) ri = data lc (type lc) li
     /\ less (type lc) (data lc (type lc) li) (data lc (type lc) li) = false) ->
  row_lexicographic_comparator_call has_nulls c li ri <> Returns true
  /\ (order_covers o tl ->
      (forall col, col ∈ _columns tl ->
         is_relationally_comparable (type col) = true) ->
      row_lexicographic_comparator_call has_nulls c li ri = Returns false).
Proof.
  intros Hmake Hequal.
  assert (Hnever : row_lexicographic_comparator_call has_nulls c li ri
                   <> Returns true).
  { pose proof Hmake as [-> _]%constructed_inv.
    apply compare_columns_never_less. intros j v Hs.
    apply column_state_returns in Hs as (lc & rc & d & Hl & Hr & _ & _ & ->).
    destruct (Hequal j lc rc Hl Hr) as (Hnull & Hdata & Hirr).
    destruct (element_equal_values has_nulls (type lc) lc li rc ri p
                Hnull Hdata Hirr) as [Hforth Hback].
    by destruct d. }
  split; [done|]. intros Hcov Hcmp.
  destruct (row_comparator_total has_nulls tl tr p o c li ri Hmake Hcov Hcmp)
    as [[|] Hv]; done.
Qed.

(** ** Nulls on an ascending column *)

(** X11: in the null-aware instantiation, when an ascending column is the
    deciding column and exactly one of its two elements is null, the row
    holding the null is the lesser one under nulls-lowest and the greater
    one under nulls-highest; two nulls in a column leave it EQUIVALENT, so
    that the walk goes on to the next column. *)
Theorem ascending_column_orders_nulls_by_policy
    (c : row_lexicographic_comparator type_id) (li ri : size_type) (k : nat)
    (lc rc : column_device_view type_id) :
  direction_at (_column_order c) k = Some ASCENDING ->
  _columns (_lhs c) !! k = Some lc -> _columns (_rhs c) !! k = Some rc ->
  is_relationally_comparable (type lc) = true ->
  (forall j, (j < k)%nat -> column_state true c li ri j = Returns EQUIVALENT) ->
  (null_at lc li -> null_at rc ri ->
     column_state true c li ri k = Returns EQUIVALENT)
  /\ (null_at lc li -> ~ null_at rc ri ->
        row_lexicographic_comparator_call true c li ri
        = Returns (bool_decide (_size_of_nulls c = LOWEST)))
  /\ (~ null_at lc li -> null_at rc ri ->
        row_lexicographic_comparator_call true c li ri
        = Returns (bool_decide (_size_of_nulls c = HIGHEST))).
Proof.
  intros Hd Hl Hr Hcmp Hall.
  assert (Hk : (k < length (_columns (_lhs c)))%nat) by by eapply lookup_lt_Some.
  assert (Hstate : column_state true c li ri k
                   = Returns (element_relational_comparator true (type lc)
                                lc li rc ri (_size_of_nulls c))).
  { rewrite (column_state_eq true c li ri k lc rc ASCENDING) by done.
    unfold type_dispatcher. by rewrite Hcmp. }
  assert (Hdecides : forall v,
            element_relational_comparator true (type lc) lc li rc ri
              (_size_of_nulls c) = v -> v <> EQUIVALENT ->
            row_lexicographic_comparator_call true c li ri
            = Returns (bool_decide (v = LESS))).
  { intros v Hv Hne.
    unfold row_lexicographic_comparator_call, num_columns. rewrite Nat2Z.id.
    apply compare_columns_first_decides with (k := k); try done.
    - intros j Hj. apply Hall. lia.
    - simpl. by rewrite Hstate, Hv. }
  split; [|split].
  - intros Hln%null_at_iff Hrn%null_at_iff. rewrite Hstate.
    unfold element_relational_comparator. by rewrite Hln, Hrn.
  - intros Hln%null_at_iff Hrn%not_null_at_iff.
    rewrite (Hdecides (if bool_decide (_size_of_nulls c = LOWEST)
                       then LESS else GREATER)).
    + by destruct (_size_of_nulls c).
    + unfold element_relational_comparator. by rewrite Hln, Hrn.
    + by destruct (_size_of_nulls c).
  - intros Hln%not_null_at_iff Hrn%null_at_iff.
    rewrite (Hdecides (if bool_decide (_size_of_nulls c = HIGHEST)
                       then LESS else GREATER)).
    + by destruct (_size_of_nulls c).
    + unfold element_relational_comparator. by rewrite Hln, Hrn.
    + by destruct (_size_of_nulls c).
Qed.

(** ** More key columns *)

Lemma column_state_local has_nulls (c c' : row_lexicographic_comparator type_id)
    li ri j j' :
  _columns (_lhs c') !! j' = _columns (_lhs c) !! j ->
  _columns (_rhs c') !! j' = _columns (_rhs c) !! j ->
  _size_of_nulls c' = _size_of_nulls c ->
  direction_at (_column_order c') j' = direction_at (_column_order c) j ->
  column_state has_nulls c' li ri j' = column_state has_nulls c li ri j.
Proof.
  intros Hl Hr Hp Hd. unfold column_state, column, at_index.
  by rewrite !ascending_at_direction, Hl, Hr, Hp, Hd.
Qed.

Lemma directions_length (c : row_lexicographic_comparator type_id) :
  order_covers (_column_order c) (_lhs c) ->
  length (directions c) = length (_columns (_lhs c)).
Proof.
  unfold order_covers, directions.
  destruct (_column_order c); [done|]. intros _. apply length_replicate.
Qed.

Lemma compare_columns_skip_all has_nulls
    (c : row_lexicographic_comparator type_id) li ri m n i :
  (forall j, (i <= j < i + m)%nat ->
     column_state has_nulls c li ri j = Returns EQUIVALENT) ->
  compare_columns has_nulls c li ri (m + n) i
  = compare_columns has_nulls c li ri n (i + m).
Proof.
  revert i. induction m as [|m IH]; intros i Hall.
  - by rewrite Nat.add_0_r.
  - replace (S m + n)%nat with (S (m + n)) by lia.
    rewrite compare_columns_skip by (apply Hall; lia).
    rewrite IH by (intros j Hj; apply Hall; lia). f_equal. lia.
Qed.

(** X10: the keys of [c1] followed by the keys of [c2] are compared
    lexicographically.  When every column of [c1] is EQUIVALENT the call
    over the joined columns gives what the call of [c2] gives; otherwise it
    gives what the call of [c1] gives.  Hence it returns true exactly when
    [c1] returns true, or all of [c1] is EQUIVALENT and [c2] returns true. *)
Theorem appended_keys_compare_lexicographically (has_nulls : bool)
    (c1 c2 : row_lexicographic_comparator type_id) (li ri : size_type) :
  length (_columns (_lhs c1)) = length (_columns (_rhs c1)) ->
  order_covers (_column_order c1) (_lhs c1) ->
  _size_of_nulls c2 = _size_of_nulls c1 ->
  let all_equivalent :=
    forall j, (j < length (_columns (_lhs c1)))%nat ->
      column_state has_nulls c1 li ri j = Returns EQUIVALENT in
  let joined :=
    row_lexicographic_comparator_call has_nulls (append_keys c1 c2) li ri in
  (all_equivalent ->
     joined = row_lexicographic_comparator_call has_nulls c2 li ri)
  /\ (~ all_equivalent ->
        joined = row_lexicographic_comparator_call has_nulls c1 li ri)
  /\ (joined = Returns true
      <-> row_lexicographic_comparator_call has_nulls c1 li ri = Returns true
          \/ (all_equivalent
              /\ row_lexicographic_comparator_call has_nulls c2 li ri
                 = Returns true)).
Proof.
  intros Hlen Hcov Hp all_equivalent joined. subst all_equivalent joined.
  set (n1 := length (_columns (_lhs c1))) in *.
  set (n2 := length (_columns (_lhs c2))).
  pose proof (directions_length c1 Hcov) as Hdirs. fold n1 in Hdirs.
  assert (Hfirst : forall j, (j < n1)%nat ->
            column_state has_nulls (append_keys c1 c2) li ri j
            = column_state has_nulls c1 li ri j).
  { intros j Hj. apply column_state_local; simpl; try done.
    - apply lookup_app_l. by fold n1.
    - apply lookup_app_l. by rewrite <- Hlen; fold n1.
    - rewrite lookup_app_l by lia. by apply directions_lookup. }
  assert (Hsecond : forall j, (j < n2)%nat ->
            column_state has_nulls (append_keys c1 c2) li ri (n1 + j)
            = column_state has_nulls c2 li ri j).
  { intros j Hj. apply column_state_local; simpl; try done.
    - rewrite lookup_app_r by (fold n1; lia). f_equal. fold n1. lia.
    - rewrite lookup_app_r by (rewrite <- Hlen; fold n1; lia).
      f_equal. rewrite <- Hlen. fold n1. lia.
    - rewrite lookup_app_r by lia. rewrite Hdirs.
      replace (n1 + j - n1)%nat with j by lia. by apply directions_lookup. }
  assert (Hjoined : row_lexicographic_comparator_call has_nulls
                      (append_keys c1 c2) li ri
                    = compare_columns has_nulls (append_keys c1 c2) li ri
                        (n1 + n2) 0).
  { unfold row_lexicographic_comparator_call, num_columns. simpl.
    by rewrite Nat2Z.id, length_app. }
  assert (Hall : (forall j, (j < n1)%nat ->
                    column_state has_nulls c1 li ri j = Returns EQUIVALENT) ->
                 row_lexicographic_comparator_call has_nulls
                   (append_keys c1 c2) li ri
                 = row_lexicographic_comparator_call has_nulls c2 li ri).
  { intros Hequiv. rewrite Hjoined.
    rewrite compare_columns_skip_all
      by (intros j Hj; rewrite Hfirst by lia; apply Hequiv; lia).
    unfold row_lexicographic_comparator_call, num_columns.
    rewrite Nat2Z.id. by apply compare_columns_shift. }
  assert (Hsome : ~ (forall j, (j < n1)%nat ->
                       column_state has_nulls c1 li ri j = Returns EQUIVALENT) ->
                  row_lexicographic_comparator_call has_nulls
                    (append_keys c1 c2) li ri
                  = row_lexicographic_comparator_call has_nulls c1 li ri).
  { intros Hnot.
    destruct (compare_columns_cases has_nulls c1 li ri n1 0)
      as [Hequiv | (k & Hk & Hequiv & Hne)].
    { destruct Hnot. intros j Hj. apply Hequiv. lia. }
    rewrite Hjoined.
    rewrite (compare_columns_first_other has_nulls (append_keys c1 c2) li ri
               _ 0 k (column_state has_nulls c1 li ri (0 + k)));
      [|lia| |by apply Hfirst|done].
    2:{ intros j Hj. rewrite Hfirst by lia. by apply Hequiv. }
    unfold row_lexicographic_comparator_call, num_columns.
    rewrite Nat2Z.id. symmetry.
    by apply compare_columns_first_other with (k := k). }
  split; [done|]. split; [done|]. split.
  - intros Htrue.
    destruct (compare_columns_cases has_nulls c1 li ri n1 0)
      as [Hequiv | (k & Hk & Hequiv & Hne)].
    + right.
      assert (Hequiv' : forall j, (j < n1)%nat ->
                column_state has_nulls c1 li ri j = Returns EQUIVALENT)
        by (intros j Hj; apply Hequiv; lia).
      split; [done|]. by rewrite <- (Hall Hequiv').
    + left. rewrite <- Hsome; [done|].
      intros Hequiv'. apply Hne. apply Hequiv'. simpl. lia.
  - intros [Htrue | [Hequiv Htrue]]; [|by rewrite Hall].
    rewrite Hsome; [done|]. intros Hequiv.
    apply call_returns_inv in Htrue
      as [[_ [=]] | (k & v & Hk & _ & Hv & Hne & _)].
    rewrite Hequiv in Hv by done. by injection Hv as <-.
Qed.

End Properties.

(** * The properties on concrete tables *)

Section Concrete.

Import Sample.

Lemma int32_strict_weak_order : strict_weak_order INT32.
Proof.
  split; simpl.
  - intros x. apply Z.ltb_irrefl.
  - intros x y z Hxy%Z.ltb_lt Hyz%Z.ltb_lt. apply Z.ltb_lt. lia.
  - intros x y z Hxy%Z.ltb_ge Hyx%Z.ltb_ge Hyz%Z.ltb_ge Hzy%Z.ltb_ge.
    split; apply Z.ltb_ge; lia.
Qed.

Lemma two_keys_types col : col ∈ _columns two_keys -> type col = INT32.
Proof.
  intros Hin. apply list_elem_of_In in Hin. simpl in Hin.
  by destruct Hin as [<-|[<-|[]]].
Qed.

Lemma tie_table_types col : col ∈ _columns tie_table -> type col = INT32.
Proof.
  intros Hin. apply list_elem_of_In in Hin. simpl in Hin.
  by destruct Hin as [<-|[<-|[]]].
Qed.

Lemma tie_table_no_nulls col r : col ∈ _columns tie_table -> ~ null_at col r.
Proof.
  intros Hin. apply list_elem_of_In in Hin. simpl in Hin.
  destruct Hin as [<-|[<-|[]]]; by apply not_null_at_iff.
Qed.

(** C1 at rows (1,5) and (1,2) of [tie_table], second column descending:
    the first column is skipped, the second decides. *)
Lemma row_comparator_first_deciding_column_witness :
  make_row_lexicographic_comparator tie_table tie_table LOWEST
    (Some [ASCENDING; DESCENDING])
  = Constructed (comparator tie_table tie_table LOWEST
                   (Some [ASCENDING; DESCENDING]))
  /\ row_lexicographic_comparator_call true
       (comparator tie_table tie_table LOWEST (Some [ASCENDING; DESCENDING]))
       0 1 = Returns true.
Proof.
  split; [reflexivity|].
  apply (proj1 (proj2 (proj2
           (row_comparator_first_deciding_column true tie_table tie_table
              LOWEST (Some [ASCENDING; DESCENDING]) _ 0 1 eq_refl)))
           1%nat LESS).
  - simpl. lia.
  - intros j Hj. replace j with 0%nat by lia. reflexivity.
  - reflexivity.
  - discriminate.
Defined.

(** C2, as stated, fails without the null checks: both elements of
    [all_null] are null, yet the instantiation with [has_nulls = false]
    compares the data below them, 7 and 9, and answers LESS. *)
Lemma element_comparator_skips_null_checks :
  is_relationally_comparable INT32 = true
  /\ null_at all_null 0 /\ null_at all_null 1
  /\ type_dispatcher false INT32 all_null 0 all_null 1 LOWEST = Returns LESS.
Proof.
  split; [reflexivity|].
  split; [by apply null_at_iff|].
  split; [by apply null_at_iff|].
  reflexivity.
Qed.

(** C2, amended, on the column null, 5, null, 2 under nulls-lowest. *)
Lemma element_comparator_null_aware_witness :
  is_relationally_comparable INT32 = true
  /\ type_dispatcher true INT32 nullable_ints 0 nullable_ints 2 LOWEST
     = Returns EQUIVALENT
  /\ type_dispatcher true INT32 nullable_ints 0 nullable_ints 1 LOWEST
     = Returns LESS
  /\ type_dispatcher true INT32 nullable_ints 3 nullable_ints 1 LOWEST
     = Returns LESS.
Proof.
  split; [reflexivity|]. split; [|split].
  - destruct (element_comparator_null_aware true INT32 nullable_ints 0
                nullable_ints 2 LOWEST eq_refl) as [Hnull _].
    destruct (Hnull eq_refl) as (Hboth & _ & _).
    apply Hboth; by apply null_at_iff.
  - destruct (element_comparator_null_aware true INT32 nullable_ints 0
                nullable_ints 1 LOWEST eq_refl) as [Hnull _].
    destruct (Hnull eq_refl) as (_ & Hleft & _).
    apply Hleft; [by apply null_at_iff|by apply not_null_at_iff].
  - destruct (element_comparator_null_aware true INT32 nullable_ints 3
                nullable_ints 1 LOWEST eq_refl) as [_ Hvalues].
    destruct Hvalues as (Hless & _ & _);
      [by apply not_null_at_iff|by apply not_null_at_iff|].
    by apply Hless.
Defined.

(** C4 at the type without [operator<]: called with its four arguments the
    overload aborts; the five-argument dispatch finds no overload. *)
Lemma uncomparable_dispatch_finds_no_overload_witness :
  is_relationally_comparable OPAQUE = false
  /\ element_relational_comparator_uncomparable opaque_column 0 opaque_column 0
     = Aborts "Attempted to compare elements of uncomparable types."
  /\ type_dispatcher true OPAQUE opaque_column 0 opaque_column 0 LOWEST
     = No_overload.
Proof.
  split; [reflexivity|].
  destruct (uncomparable_dispatch_finds_no_overload true OPAQUE opaque_column 0
              opaque_column 0 LOWEST eq_refl) as (Hdirect & Hdispatch & _).
  by split.
Defined.

(** C5 at row (1,2) of [two_keys]. *)
Lemma row_comparator_irreflexive_witness :
  make_row_lexicographic_comparator two_keys two_keys LOWEST None
  = Constructed (comparator two_keys two_keys LOWEST None)
  /\ row_lexicographic_comparator_call true
       (comparator two_keys two_keys LOWEST None) 1 1 = Returns false.
Proof.
  split; [reflexivity|].
  apply (row_comparator_irreflexive true two_keys LOWEST None _ 1 eq_refl).
  - intros col Hin x. revert x. rewrite (two_keys_types col Hin).
    apply Z.ltb_irrefl.
  - exact I.
  - intros col Hin. by rewrite (two_keys_types col Hin).
Defined.

(** C6, as stated, fails on a table with a NaN: row 0 is less than row 1
    and row 1 less than row 2 (2.0 and 1.0 are each incomparable with NaN, so
    the integer column decides), but row 0 is not less than row 2 (1.0 < 2.0
    decides in the first column). *)
Lemma nan_breaks_transitivity :
  make_row_lexicographic_comparator nan_table nan_table LOWEST None
  = Constructed (comparator nan_table nan_table LOWEST None)
  /\ row_lexicographic_comparator_call true
       (comparator nan_table nan_table LOWEST None) 0 1 = Returns true
  /\ row_lexicographic_comparator_call true
       (comparator nan_table nan_table LOWEST None) 1 2 = Returns true
  /\ row_lexicographic_comparator_call true
       (comparator nan_table nan_table LOWEST None) 0 2 = Returns false.
Proof. repeat split; vm_compute; reflexivity. Qed.

(** The doubles that [float_keys] stores at its three rows. *)
Lemma float_keys_values (x : float) :
  read_values true (fun r => 0 <= r < 3)
    (float64_column [2.5%float; 1%float; 2.5%float] None) x ->
  x = 2.5%float \/ x = 1%float.
Proof.
  intros (r & Hr & _ & <-).
  assert (r = 0 \/ r = 1 \/ r = 2) as [-> | [-> | ->]] by lia;
    vm_compute; auto.
Qed.

(** On these doubles [operator<] is a strict weak ordering. *)
Lemma float_keys_ordered :
  strict_weak_order_on FLOAT64
    (read_values true (fun r => 0 <= r < 3)
       (float64_column [2.5%float; 1%float; 2.5%float] None)).
Proof.
  split.
  - intros x [-> | ->]%float_keys_values; reflexivity.
  - intros x y z [-> | ->]%float_keys_values [-> | ->]%float_keys_values
      [-> | ->]%float_keys_values; vm_compute; congruence.
  - intros x y z [-> | ->]%float_keys_values [-> | ->]%float_keys_values
      [-> | ->]%float_keys_values; vm_compute; intuition congruence.
Qed.

(** C6, amended, on [float_keys], whose first column holds doubles:
    (1.0, 2) < (2.5, 1) and (2.5, 1) < (2.5, 3) give (1.0, 2) < (2.5, 3). *)
Lemma row_comparator_strict_weak_ordering_witness :
  make_row_lexicographic_comparator float_keys float_keys LOWEST None
  = Constructed (comparator float_keys float_keys LOWEST None)
  /\ row_lexicographic_comparator_call true
       (comparator float_keys float_keys LOWEST None) 1 2 = Returns true
  /\ row_lexicographic_comparator_call true
       (comparator float_keys float_keys LOWEST None) 2 0 = Returns true
  /\ row_lexicographic_comparator_call true
       (comparator float_keys float_keys LOWEST None) 1 0 = Returns true.
Proof.
  split; [reflexivity|]. split; [reflexivity|]. split; [reflexivity|].
  assert (Hswo : forall col, col ∈ _columns float_keys ->
            is_relationally_comparable (type col) = true ->
            strict_weak_order_on (type col)
              (read_values true (fun r => 0 <= r < 3) col)).
  { intros col Hin _. apply list_elem_of_In in Hin. simpl in Hin.
    destruct Hin as [<-|[<-|[]]].
    - exact float_keys_ordered.
    - apply strict_weak_order_on_any. exact int32_strict_weak_order. }
  apply (proj1 (row_comparator_strict_weak_ordering true float_keys LOWEST None
                  _ (fun r => 0 <= r < 3) eq_refl Hswo) 1 2 0);
    first [lia | reflexivity].
Defined.

(** C7 on rows (1,5) and (1,2) of [tie_table]: with both columns ascending
    the second column decides that the first row is not less; with the
    second column made descending the verdict is inverted. *)
Lemma descending_flag_inverts_deciding_column_witness :
  make_row_lexicographic_comparator tie_table tie_table LOWEST
    (Some [ASCENDING; ASCENDING])
  = Constructed (comparator tie_table tie_table LOWEST
                   (Some [ASCENDING; ASCENDING]))
  /\ direction_at (Some [ASCENDING; ASCENDING]) 1 = Some ASCENDING
  /\ row_lexicographic_comparator_call true
       (comparator tie_table tie_table LOWEST (Some [ASCENDING; ASCENDING]))
       0 1 = Returns false
  /\ row_lexicographic_comparator_call true
       (flip_to_descending 1
          (comparator tie_table tie_table LOWEST (Some [ASCENDING; ASCENDING])))
       0 1 = Returns true.
Proof.
  split; [reflexivity|]. split; [reflexivity|].
  apply (proj1 (proj2
           (descending_flag_inverts_deciding_column true tie_table tie_table
              LOWEST (Some [ASCENDING; ASCENDING]) _ 0 1 1 eq_refl eq_refl))
           (int32_column [5; 2; 9] None) GREATER).
  - reflexivity.
  - apply strict_weak_order_asymmetric, int32_strict_weak_order.
  - intros j Hj. replace j with 0%nat by lia. reflexivity.
  - reflexivity.
  - discriminate.
Defined.

(** C8 on rows (1,5) and (1,2) of [tie_table], second column descending. *)
Lemma no_nulls_reduces_to_lexicographic_witness :
  make_row_lexicographic_comparator tie_table tie_table HIGHEST
    (Some [ASCENDING; DESCENDING])
  = Constructed (comparator tie_table tie_table HIGHEST
                   (Some [ASCENDING; DESCENDING]))
  /\ order_covers (Some [ASCENDING; DESCENDING]) tie_table
  /\ row_lexicographic_comparator_call true
       (comparator tie_table tie_table HIGHEST (Some [ASCENDING; DESCENDING]))
       0 1
     = Returns (lexicographic_less
                  [Key INT32 1 1 ASCENDING; Key INT32 5 2 DESCENDING]).
Proof.
  split; [reflexivity|]. split; [reflexivity|].
  apply (no_nulls_reduces_to_lexicographic true tie_table tie_table HIGHEST
           (Some [ASCENDING; DESCENDING]) _ 0 1 eq_refl).
  - reflexivity.
  - intros col Hin. by rewrite (tie_table_types col Hin).
  - intros col. apply tie_table_no_nulls.
  - intros col. apply tie_table_no_nulls.
Defined.

(** C9, as stated, fails without the null checks: under nulls-lowest on a
    descending column, the instantiation with [has_nulls = false] compares
    the datum 5 below the null with 3 and puts the null row first. *)
Lemma descending_null_sorts_first_without_null_checks :
  make_row_lexicographic_comparator
    (table [null_then_three] 2) (table [null_then_three] 2) LOWEST
    (Some [DESCENDING])
  = Constructed (comparator (table [null_then_three] 2)
                   (table [null_then_three] 2) LOWEST (Some [DESCENDING]))
  /\ null_at null_then_three 0 /\ ~ null_at null_then_three 1
  /\ column_state false
       (comparator (table [null_then_three] 2) (table [null_then_three] 2)
          LOWEST (Some [DESCENDING])) 0 1 0 = Returns LESS
  /\ row_lexicographic_comparator_call false
       (comparator (table [null_then_three] 2) (table [null_then_three] 2)
          LOWEST (Some [DESCENDING])) 0 1 = Returns true
  /\ row_lexicographic_comparator_call false
       (comparator (table [null_then_three] 2) (table [null_then_three] 2)
          LOWEST (Some [DESCENDING])) 1 0 = Returns false.
Proof.
  split; [reflexivity|].
  split; [by apply null_at_iff|].
  split; [by apply not_null_at_iff|].
  repeat split; reflexivity.
Qed.

(** C9, amended, on the same column with the null checks: the null row is
    not less than the row holding 3, and that row is less than the null
    row. *)
Lemma descending_column_inverts_null_policy_witness :
  null_at null_then_three 0 /\ ~ null_at null_then_three 1
  /\ row_lexicographic_comparator_call true
       (comparator (table [null_then_three] 2) (table [null_then_three] 2)
          LOWEST (Some [DESCENDING])) 0 1 = Returns false
  /\ row_lexicographic_comparator_call true
       (comparator (table [null_then_three] 2) (table [null_then_three] 2)
          LOWEST (Some [DESCENDING])) 1 0 = Returns true.
Proof.
  assert (Hnull : null_at null_then_three 0) by by apply null_at_iff.
  assert (Hthree : ~ null_at null_then_three 1) by by apply not_null_at_iff.
  split; [done|]. split; [done|]. split.
  - apply (proj1 (descending_column_inverts_null_policy
                    (table [null_then_three] 2) (table [null_then_three] 2)
                    LOWEST (Some [DESCENDING]) _ 0 1 0
                    null_then_three null_then_three
                    eq_refl eq_refl eq_refl eq_refl eq_refl
                    ltac:(intros j Hj; lia))); done.
  - apply (proj2 (descending_column_inverts_null_policy
                    (table [null_then_three] 2) (table [null_then_three] 2)
                    LOWEST (Some [DESCENDING]) _ 1 0 0
                    null_then_three null_then_three
                    eq_refl eq_refl eq_refl eq_refl eq_refl
                    ltac:(intros j Hj; lia))); done.
Defined.

Lemma int32_asymmetric : asymmetric INT32.
Proof. apply strict_weak_order_asymmetric, int32_strict_weak_order. Qed.

Lemma twin_rows_types col : col ∈ _columns twin_rows -> type col = INT32.
Proof.
  intros Hin. apply list_elem_of_In in Hin. simpl in Hin.
  by destruct Hin as [<-|[<-|[]]].
Qed.

(** X3 on [tie_table]. *)
Lemma all_ascending_is_default_witness :
  row_lexicographic_comparator_call true
    (with_column_order (comparator tie_table tie_table LOWEST None)
       (Some [ASCENDING; ASCENDING])) 1 0
  = row_lexicographic_comparator_call true
      (with_column_order (comparator tie_table tie_table LOWEST None) None) 1 0.
Proof.
  apply (all_ascending_is_default true
           (comparator tie_table tie_table LOWEST None)
           [ASCENDING; ASCENDING] 1 0).
  intros j Hj. simpl in Hj. destruct j as [|[|j]]; [reflexivity|reflexivity|lia].
Defined.

(** X4 on [tie_table], which has no nulls. *)
Lemma has_nulls_flag_irrelevant_without_nulls_witness :
  row_lexicographic_comparator_call true
    (comparator tie_table tie_table LOWEST None) 0 2
  = row_lexicographic_comparator_call false
      (comparator tie_table tie_table LOWEST None) 0 2.
Proof.
  apply (has_nulls_flag_irrelevant_without_nulls
           (comparator tie_table tie_table LOWEST None) 0 2).
  - intros col. apply tie_table_no_nulls.
  - intros col. apply tie_table_no_nulls.
Defined.

(** X5 on the two nulls of the column null, 5, null, 2. *)
Lemma null_policy_irrelevant_when_nulls_align_witness :
  null_at nullable_ints 0 /\ null_at nullable_ints 2
  /\ row_lexicographic_comparator_call true
       (with_size_of_nulls
          (comparator (table [nullable_ints] 4) (table [nullable_ints] 4)
             LOWEST None) HIGHEST) 0 2
     = row_lexicographic_comparator_call true
         (comparator (table [nullable_ints] 4) (table [nullable_ints] 4)
            LOWEST None) 0 2.
Proof.
  assert (H0 : null_at nullable_ints 0) by by apply null_at_iff.
  assert (H2 : null_at nullable_ints 2) by by apply null_at_iff.
  split; [done|]. split; [done|].
  apply (null_policy_irrelevant_when_nulls_align true
           (comparator (table [nullable_ints] 4) (table [nullable_ints] 4)
              LOWEST None) HIGHEST 0 2).
  intros j lc rc Hl Hr. destruct j as [|j]; [|discriminate].
  simpl in Hl, Hr. injection Hl as <-. injection Hr as <-. by split.
Defined.


(** X7 on [tie_table]: ascending then descending, reversed. *)
Lemma reversed_directions_exchange_operands_witness :
  make_row_lexicographic_comparator tie_table tie_table LOWEST
    (Some [ASCENDING; DESCENDING])
  = Constructed (comparator tie_table tie_table LOWEST
                   (Some [ASCENDING; DESCENDING]))
  /\ row_lexicographic_comparator_call true
       (reversed (comparator tie_table tie_table LOWEST
                    (Some [ASCENDING; DESCENDING]))) 1 0
     = row_lexicographic_comparator_call true
         (comparator tie_table tie_table LOWEST (Some [ASCENDING; DESCENDING]))
         0 1.
Proof.
  split; [reflexivity|].
  apply (reversed_directions_exchange_operands true tie_table tie_table LOWEST
           (Some [ASCENDING; DESCENDING]) _ 0 1 eq_refl).
  apply same_table_same_schema.
Defined.

(** X8 on [two_keys]: (1,1) is less than (3,1), so (3,1) is not less than
    (1,1). *)
Lemma call_asymmetric_witness :
  row_lexicographic_comparator_call true
    (comparator two_keys two_keys LOWEST None) 2 0 = Returns true
  /\ row_lexicographic_comparator_call true
       (swapped (comparator two_keys two_keys LOWEST None)) 0 2 = Returns false.
Proof.
  split; [reflexivity|].
  apply (call_asymmetric true two_keys two_keys LOWEST None _ 2 0 eq_refl).
  - apply same_table_same_schema.
  - intros col Hin. rewrite (two_keys_types col Hin). exact int32_asymmetric.
  - reflexivity.
Defined.

(** X9 on [twin_rows]: the two rows are EQUIVALENT in both columns. *)
Lemma incomparable_iff_all_equivalent_witness :
  row_lexicographic_comparator_call true
    (comparator twin_rows twin_rows LOWEST None) 0 1 = Returns false
  /\ row_lexicographic_comparator_call true
       (swapped (comparator twin_rows twin_rows LOWEST None)) 1 0
     = Returns false.
Proof.
  apply (proj2 (incomparable_iff_all_equivalent true twin_rows twin_rows
                  LOWEST None _ 0 1 eq_refl
                  (same_table_same_schema twin_rows LOWEST None)
                  (fun col Hin =>
                     eq_ind_r asymmetric int32_asymmetric
                       (twin_rows_types col Hin)))).
  intros j Hj. simpl in Hj. destruct j as [|[|j]]; [reflexivity|reflexivity|lia].
Defined.

(** X10: the first key of rows 0 and 1 of [tie_table] is EQUIVALENT, so the
    second key, taken descending, decides. *)
Lemma appended_keys_compare_lexicographically_witness :
  order_covers None first_key
  /\ row_lexicographic_comparator_call true
       (append_keys (comparator first_key first_key LOWEST None)
          (comparator second_key second_key LOWEST (Some [DESCENDING]))) 0 1
     = row_lexicographic_comparator_call true
         (comparator second_key second_key LOWEST (Some [DESCENDING])) 0 1.
Proof.
  split; [exact I|].
  apply (proj1 (appended_keys_compare_lexicographically true
                  (comparator first_key first_key LOWEST None)
                  (comparator second_key second_key LOWEST (Some [DESCENDING]))
                  0 1 eq_refl I eq_refl)).
  intros j Hj. simpl in Hj. replace j with 0%nat by lia. reflexivity.
Defined.

(** X11 on the column null, 5, null, 2, ascending under nulls-lowest: the
    null row 0 is less than row 1. *)
Lemma ascending_column_orders_nulls_by_policy_witness :
  null_at nullable_ints 0 /\ ~ null_at nullable_ints 1
  /\ row_lexicographic_comparator_call true
       (comparator (table [nullable_ints] 4) (table [nullable_ints] 4)
          LOWEST None) 0 1 = Returns true.
Proof.
  assert (H0 : null_at nullable_ints 0) by by apply null_at_iff.
  assert (H1 : ~ null_at nullable_ints 1) by by apply not_null_at_iff.
  split; [done|]. split; [done|].
  apply (proj1 (proj2 (ascending_column_orders_nulls_by_policy
                         (comparator (table [nullable_ints] 4)
                            (table [nullable_ints] 4) LOWEST None)
                         0 1 0 nullable_ints nullable_ints
                         eq_refl eq_refl eq_refl eq_refl
                         ltac:(intros j Hj; lia))) H0 H1).
Defined.

(** X12 on the integers 5 and 2 of the column null, 5, null, 2. *)
Lemma element_comparison_antisymmetric_witness :
  element_relational_comparator true INT32 nullable_ints 3 nullable_ints 1 LOWEST
  = converse
      (element_relational_comparator true INT32 nullable_ints 1 nullable_ints 3
         LOWEST).
Proof.
  apply (proj1 (element_comparison_antisymmetric true INT32 nullable_ints 1
                  nullable_ints 3 LOWEST int32_asymmetric)).
Defined.

(** X13 on [twin_rows]. *)
Lemma equal_rows_are_not_less_witness :
  make_row_lexicographic_comparator twin_rows twin_rows LOWEST None
  = Constructed (comparator twin_rows twin_rows LOWEST None)
  /\ row_lexicographic_comparator_call true
       (comparator twin_rows twin_rows LOWEST None) 0 1 = Returns false.
Proof.
  split; [reflexivity|].
  apply (equal_rows_are_not_less true twin_rows twin_rows LOWEST None _ 0 1
           eq_refl).
  - intros j lc rc Hl Hr.
    destruct j as [|[|j]]; simpl in Hl, Hr; try discriminate;
      injection Hl as <-; injection Hr as <-;
      (split; [by split; intros ?%null_at_iff|]); by split.
  - exact I.
  - intros col Hin. by rewrite (twin_rows_types col Hin).
Defined.

End Concrete.
